(** * OpenDoorBot: Typeform webhook to amoCRM reconciliation

    A shallow embedding of the webhook handler ([src/index.ts]), the
    submission ledger ([src/db.ts]), the CRM client ([src/amocrm.ts]), the
    contact extraction ([src/typeform.ts]) and the custom-field mapper
    ([src/mapping.ts]), followed by the properties the design document
    states about them.

    Conventions of the embedding:
    - a JS value that may be [undefined] (or SQL [NULL]) is an [option];
    - JS strings are [string]s (sequences of 8-bit code units); [trim] and
      [toLowerCase] act on that range;
    - asynchronous code is sequential state passing over a [World] (the
      key-value table, the submissions table, the responses the remote CRM
      is going to give, and the log of the requests sent to it);
    - a thrown [Error] is a value of type [Error]; the state reached at the
      moment of the throw is kept. *)

From Stdlib Require Import ZArith String Ascii List Lia Bool.
From stdpp Require Import base option list strings gmap sorting.
From Equations Require Import Equations.

Open Scope string_scope.
Open Scope Z_scope.

(** ** JavaScript string primitives *)

Module Js.

(** Truthiness of a [string | undefined]: defined and not empty. *)
Definition truthy (o : option string) : bool :=
  match o with
  | Some (String _ _) => true
  | _ => false
  end.

(** [a ?? b] on optional values. *)
Definition nullish {A} (o : option A) (d : A) : A :=
  match o with Some x => x | None => d end.

(** White space removed by [String.prototype.trim], code units below 256. *)
Definition is_space (c : ascii) : bool :=
  let n := nat_of_ascii c in
  ((9 <=? n)%nat && (n <=? 13)%nat) || (n =? 32)%nat || (n =? 160)%nat.

Fixpoint trimStart (s : string) : string :=
  match s with
  | EmptyString => EmptyString
  | String c s' => if is_space c then trimStart s' else s
  end.

Fixpoint trimEnd (s : string) : string :=
  match s with
  | EmptyString => EmptyString
  | String c s' =>
      match trimEnd s' with
      | EmptyString => if is_space c then EmptyString else String c EmptyString
      | t => String c t
      end
  end.

Definition trim (s : string) : string := trimEnd (trimStart s).

(** [value.trim().length === 0] *)
Definition blank (s : string) : bool :=
  match trim s with EmptyString => true | _ => false end.

(** A string on which [trim] has nothing left to remove. *)
Definition trimmed (s : string) : Prop := trim s = s.

Definition lower_char (c : ascii) : ascii :=
  let n := nat_of_ascii c in
  if ((65 <=? n)%nat && (n <=? 90)%nat) then ascii_of_nat (n + 32) else c.

Fixpoint toLowerCase (s : string) : string :=
  match s with
  | EmptyString => EmptyString
  | String c s' => String (lower_char c) (toLowerCase s')
  end.

Definition startsWith (s p : string) : bool := String.prefix p s.

Fixpoint includes (s p : string) : bool :=
  String.prefix p s ||
  match s with
  | EmptyString => false
  | String _ s' => includes s' p
  end.

(** [labels.join(", ")] *)
Fixpoint join (sep : string) (l : list string) : string :=
  match l with
  | [] => ""
  | [x] => x
  | x :: rest => x ++ sep ++ join sep rest
  end.

Definition is_digit (c : ascii) : bool :=
  let n := nat_of_ascii c in (48 <=? n)%nat && (n <=? 57)%nat.

End Js.

(** ** The inbound event ([src/typeform.ts]) *)

Record Answer := {
  ans_type : string;
  ans_field_id : string;
  ans_field_ref : option string;
  ans_text : option string;
  ans_email : option string;
  ans_phone_number : option string;
  ans_boolean : option bool;
  (** the numeric slot, carried as [String(a.number)] *)
  ans_number : option string;
  ans_date : option string;
  (** [a.choice?.label] *)
  ans_choice_label : option string;
  (** [a.choices?.labels] *)
  ans_choices_labels : option (list string)
}.

Record FieldDef := {
  fd_id : string;
  fd_ref : option string;
  fd_title : option string
}.

(** [hidden] is the object's entry list in [Object.entries] order, [answers]
    the answer array and [definition_fields] is [definition?.fields]; a
    missing member is the empty list, as [?? {}] and [?? []] make it in
    every reader. [form_id] and [token] are optional because the handler
    checks them at run time. *)
Record FormResponse := {
  form_id : option string;
  token : option string;
  landing_id : option string;
  submitted_at : option string;
  hidden : list (string * string);
  definition_fields : list FieldDef;
  answers : list Answer
}.

Record Payload := {
  event_id : option string;
  event_type : option string;
  form_response : option FormResponse
}.

(** Property read [hidden[k]]. *)
Fixpoint hidden_get (h : list (string * string)) (k : string) : option string :=
  match h with
  | [] => None
  | (k', v) :: rest => if String.eqb k' k then Some v else hidden_get rest k
  end.

Record ContactBits := {
  cb_name : option string;
  cb_email : option string;
  cb_phone : option string
}.

(** One iteration of the answer loop of [extractContactBits]. *)
Definition contact_step (st : ContactBits) (a : Answer) : ContactBits :=
  let email :=
    if negb (Js.truthy (cb_email st)) && Js.truthy (ans_email a)
    then ans_email a else cb_email st in
  let phone :=
    if negb (Js.truthy (cb_phone st)) && Js.truthy (ans_phone_number a)
    then ans_phone_number a else cb_phone st in
  let name :=
    match ans_text a with
    | Some t =>
        if negb (Js.truthy (cb_name st)) && String.eqb (ans_type a) "text"
           && Js.truthy (ans_text a) && (1 <? String.length (Js.trim t))%nat
        then Some (Js.trim t) else cb_name st
    | None => cb_name st
    end in
  {| cb_name := name; cb_email := email; cb_phone := phone |}.

Definition extractContactBits (fr : FormResponse) : ContactBits :=
  let st := fold_left contact_step (answers fr)
              {| cb_name := None; cb_email := None; cb_phone := None |} in
  let h := hidden fr in
  let email :=
    if negb (Js.truthy (cb_email st)) && Js.truthy (hidden_get h "email")
    then hidden_get h "email" else cb_email st in
  let phone :=
    if negb (Js.truthy (cb_phone st)) && Js.truthy (hidden_get h "phone")
    then hidden_get h "phone" else cb_phone st in
  let name :=
    if negb (Js.truthy (cb_name st)) && Js.truthy (hidden_get h "name")
    then hidden_get h "name" else cb_name st in
  {| cb_name := name; cb_email := email; cb_phone := phone |}.

(** *** The answer summarizer: the text of the audit note *)

(** [titleByKey.set]: a later title for the same key replaces the earlier. *)
Definition title_step (m : list (string * string)) (f : FieldDef) : list (string * string) :=
  match fd_title f with
  | Some (String c t) =>
      let title := String c t in
      let m1 := if Js.truthy (fd_ref f) then (Js.nullish (fd_ref f) "", title) :: m else m in
      if Js.truthy (Some (fd_id f)) then (fd_id f, title) :: m1 else m1
  | _ => m
  end.

Definition answer_key (a : Answer) : string :=
  Js.nullish (ans_field_ref a) (ans_field_id a).

Definition answer_value (a : Answer) : string :=
  if Js.truthy (ans_text a) then Js.nullish (ans_text a) ""
  else if Js.truthy (ans_email a) then Js.nullish (ans_email a) ""
  else if Js.truthy (ans_phone_number a) then Js.nullish (ans_phone_number a) ""
  else match ans_boolean a with
  | Some b => if b then "true" else "false"
  | None =>
  match ans_number a with
  | Some n => n
  | None =>
  if Js.truthy (ans_date a) then Js.nullish (ans_date a) ""
  else if Js.truthy (ans_choice_label a) then Js.nullish (ans_choice_label a) ""
  else match ans_choices_labels a with
  | Some (l :: ls) => Js.join ", " (l :: ls)
  | _ => "(unsupported)"
  end end end.

Fixpoint sort_insert (k : string) (l : list string) : list string :=
  match l with
  | [] => [k]
  | x :: rest => if String.leb k x then k :: l else x :: sort_insert k rest
  end.

Definition sort_keys (l : list string) : list string :=
  fold_right sort_insert [] l.

Definition newline : string := String (ascii_of_nat 10) EmptyString.

Definition stringifyAnswers (fr : FormResponse) : string :=
  let titleByKey := fold_left title_step (definition_fields fr) [] in
  let parts :=
    map (fun a =>
           let key := answer_key a in
           Js.nullish (hidden_get titleByKey key) key ++ ": " ++ answer_value a)
        (answers fr) in
  let h := hidden fr in
  let hiddenKeys := map fst h in
  let tail :=
    match hiddenKeys with
    | [] => []
    | _ => "" :: "hidden:" ::
           map (fun k => k ++ ": " ++ Js.nullish (hidden_get h k) "") (sort_keys hiddenKeys)
    end in
  Js.join newline (parts ++ tail).

(** ** The field mapper ([src/mapping.ts]) *)

Record CustomValue := {
  cv_value : option string;
  cv_enum_id : option Z
}.

Record LeadCustomFieldValue := {
  lcf_field_id : Z;
  lcf_values : list CustomValue
}.

Definition HIDDEN_TO_LEAD_FIELD_ID : list (string * Z) :=
  [ ("utm_content", 214691); ("utm_medium", 214693); ("utm_campaign", 214695);
    ("utm_source", 214697); ("utm_term", 214699); ("utm_referrer", 214701);
    ("roistat", 214703); ("referrer", 214705); ("openstat_service", 214707);
    ("openstat_campaign", 214709); ("openstat_ad", 214711);
    ("openstat_source", 214713); ("from", 214715); ("gclientid", 214717);
    ("_ym_uid", 214719); ("_ym_counter", 214721); ("gclid", 214723);
    ("yclid", 214725); ("fbclid", 214727) ].

(** Property read [table[k]] on an object literal or a parsed JSON object:
    its own properties. *)
Fixpoint table_get {V} (t : list (string * V)) (k : string) : option V :=
  match t with
  | [] => None
  | (k', v) :: rest => if String.eqb k' k then Some v else table_get rest k
  end.

(** An entry of the table parsed from [TYPEFORM_FIELD_MAP]. *)
Record FieldMapping := {
  fm_entity : string;
  fm_fieldId : Z
}.

Module DEFAULT_REFS.
Definition fullName : list string :=
  ["fd704be3-ad3e-4290-b60d-7f975b55ae84"; "3e231887-ca36-4afd-aefa-119d3c7e710d"].
Definition childName : list string :=
  ["8c517346-f61c-4275-ae57-1a088af15cfe"; "2fa4a64a-dac4-4ace-98a3-18419435d831"].
Definition childDob : list string :=
  ["d35af5e7-1255-485c-a445-d49d2c682fd2"; "98e1c79c-bdb2-4534-bf70-5894ed7e9c2b"].
Definition desiredProgram : list string :=
  ["f1da7df1-b0b0-4fc7-8cd4-0bf95cfdcd2b"; "c90719d9-e6d8-4fbe-9d4b-c05953644281"].
Definition currentEducation : list string :=
  ["658c6abe-395a-4362-9124-6304202d443b"; "b1a6060f-4d88-4be0-ae79-8944452c3c1a"].
End DEFAULT_REFS.

Module LEAD_FIELD.
Definition fullName : Z := 985897.
Definition childName1 : Z := 995889.
Definition childDob1 : Z := 995891.
Definition desiredProgram : Z := 995887.
Definition currentEducation : Z := 985895.
End LEAD_FIELD.

Module DESIRED_PROGRAM_ENUM.
Definition kindergarden : Z := 1222831.
Definition ibSchool : Z := 1222835.
Definition consultation : Z := 1222837.
End DESIRED_PROGRAM_ENUM.

(** [/^\d{4}-\d{2}-\d{2}$/] *)
Definition is_iso_date (s : string) : bool :=
  match list_ascii_of_string s with
  | [y1; y2; y3; y4; d1; m1; m2; d2; a1; a2] =>
      forallb Js.is_digit [y1; y2; y3; y4; m1; m2; a1; a2]
      && Ascii.eqb d1 "-"%char && Ascii.eqb d2 "-"%char
  | _ => false
  end.

Definition toAmoDateTime (value : option string) : option string :=
  match value with
  | Some (String c t) =>
      let s := Js.trim (String c t) in
      if is_iso_date s then Some (s ++ "T00:00:00+00:00") else Some s
  | _ => None
  end.

Definition getAnswerString (a : Answer) : option string :=
  if Js.truthy (ans_text a) then ans_text a
  else if Js.truthy (ans_email a) then ans_email a
  else if Js.truthy (ans_phone_number a) then ans_phone_number a
  else match ans_boolean a with
  | Some b => Some (if b then "true" else "false")
  | None =>
  match ans_number a with
  | Some n => Some n
  | None =>
  if Js.truthy (ans_date a) then toAmoDateTime (ans_date a)
  else if Js.truthy (ans_choice_label a) then ans_choice_label a
  else match ans_choices_labels a with
  | Some (l :: ls) => Some (Js.join ", " (l :: ls))
  | _ => None
  end end end.

Definition mapDesiredProgramEnum (label : option string) : option Z :=
  match label with
  | Some (String c t) =>
      let s := Js.toLowerCase (Js.trim (String c t)) in
      if Js.startsWith s "ib kg" then Some DESIRED_PROGRAM_ENUM.kindergarden
      else if Js.startsWith s "pyp" then Some DESIRED_PROGRAM_ENUM.ibSchool
      else if Js.startsWith s "myp" then Some DESIRED_PROGRAM_ENUM.ibSchool
      else if Js.startsWith s "dp" then Some DESIRED_PROGRAM_ENUM.ibSchool
      else if Js.includes s "not sure" then Some DESIRED_PROGRAM_ENUM.consultation
      else if Js.includes s "не уверен" then Some DESIRED_PROGRAM_ENUM.consultation
      else None
  | _ => None
  end.

(** [outByFieldId]: a JS [Map], which keeps the order of first insertion. *)
Definition OutMap := list (Z * LeadCustomFieldValue).

Fixpoint map_set (m : OutMap) (k : Z) (v : LeadCustomFieldValue) : OutMap :=
  match m with
  | [] => [(k, v)]
  | (k', v') :: rest =>
      if Z.eqb k' k then (k, v) :: rest else (k', v') :: map_set rest k v
  end.

Fixpoint map_get (m : OutMap) (k : Z) : option LeadCustomFieldValue :=
  match m with
  | [] => None
  | (k', v) :: rest => if Z.eqb k' k then Some v else map_get rest k
  end.

Definition truthyZ (o : option Z) : bool :=
  match o with
  | Some n => negb (n =? 0)
  | None => false
  end.

(** The arguments of one call of [put]. *)
Record PutParams := {
  pp_fieldId : Z;
  pp_value : option string;
  pp_enumId : option Z
}.

Definition put_skips (p : PutParams) : bool :=
  match pp_value p with None => true | Some v => Js.blank v end
  && match pp_enumId p with None => true | Some _ => false end.

Definition put_entry (p : PutParams) : LeadCustomFieldValue :=
  {| lcf_field_id := pp_fieldId p;
     lcf_values :=
       [ {| cv_value := match pp_value p with
                        | Some (String c t) => Some (Js.trim (String c t))
                        | _ => None
                        end;
            cv_enum_id := if truthyZ (pp_enumId p) then pp_enumId p else None |} ] |}.

Definition put (out : OutMap) (p : PutParams) : OutMap :=
  if put_skips p then out else map_set out (pp_fieldId p) (put_entry p).

Definition includes_key (refs : list string) (key : string) : bool :=
  existsb (String.eqb key) refs.

(** First loop: hidden parameters. *)
Definition hidden_step (out : OutMap) (kv : string * string) : OutMap :=
  match table_get HIDDEN_TO_LEAD_FIELD_ID (fst kv) with
  | None => out
  | Some fieldId =>
      if fieldId =? 0 then out
      else if Js.blank (snd kv) then out
      else put out {| pp_fieldId := fieldId; pp_value := Some (snd kv); pp_enumId := None |}
  end.

(** Second loop: answers whose ref is one of [DEFAULT_REFS]. *)
Definition static_step (out : OutMap) (a : Answer) : OutMap :=
  let key := answer_key a in
  let out1 := if includes_key DEFAULT_REFS.fullName key
    then put out {| pp_fieldId := LEAD_FIELD.fullName; pp_value := ans_text a; pp_enumId := None |}
    else out in
  let out2 := if includes_key DEFAULT_REFS.childName key
    then put out1 {| pp_fieldId := LEAD_FIELD.childName1; pp_value := ans_text a; pp_enumId := None |}
    else out1 in
  let out3 := if includes_key DEFAULT_REFS.childDob key
    then put out2 {| pp_fieldId := LEAD_FIELD.childDob1; pp_value := toAmoDateTime (ans_date a);
                     pp_enumId := None |}
    else out2 in
  let out4 := if includes_key DEFAULT_REFS.desiredProgram key
    then put out3 {| pp_fieldId := LEAD_FIELD.desiredProgram; pp_value := None;
                     pp_enumId := mapDesiredProgramEnum (ans_choice_label a) |}
    else out3 in
  if includes_key DEFAULT_REFS.currentEducation key
  then put out4 {| pp_fieldId := LEAD_FIELD.currentEducation; pp_value := ans_choice_label a;
                   pp_enumId := None |}
  else out4.

(** Third loop: the table configured in [TYPEFORM_FIELD_MAP]. *)
Definition dynamic_step (fieldMap : list (string * FieldMapping))
    (out : OutMap) (a : Answer) : OutMap :=
  match table_get fieldMap (answer_key a) with
  | None => out
  | Some mapping =>
      if negb (String.eqb (fm_entity mapping) "lead") then out
      else put out {| pp_fieldId := fm_fieldId mapping; pp_value := getAnswerString a;
                      pp_enumId := None |}
  end.

Definition buildLeadCustomFields (fieldMap : list (string * FieldMapping))
    (fr : FormResponse) : list LeadCustomFieldValue :=
  let out1 := fold_left hidden_step (hidden fr) [] in
  let out2 := fold_left static_step (answers fr) out1 in
  let out3 := fold_left (dynamic_step fieldMap) (answers fr) out2 in
  map snd out3.

(** ** The submission ledger and the credential store ([src/db.ts]) *)

(** A row of [typeform_submissions]. The CRM ids are [BIGINT] columns, read
    back as non-empty decimal strings and converted with [Number], so
    [row.amo_lead_id ? Number(row.amo_lead_id) : undefined] is the column
    itself. [last_payload] is the event as stored. *)
Record SubmissionRow := {
  row_form_id : string;
  row_response_token : string;
  row_landing_id : option string;
  row_submitted_at : option string;
  row_last_event_id : option string;
  row_last_event_type : option string;
  row_amo_lead_id : option Z;
  row_amo_contact_id : option Z;
  row_last_payload : Payload
}.

(** The table, most recently written row first ([updated_at DESC]); the
    [UNIQUE] constraint on [response_token] is [ledger_unique] below. *)
Definition Ledger := list SubmissionRow.

Definition has_token (tok : string) (r : SubmissionRow) : bool :=
  String.eqb (row_response_token r) tok.

Definition getSubmissionByToken (t : Ledger) (responseToken : string)
    : option SubmissionRow :=
  find (has_token responseToken) t.

Definition getLatestSubmissionByLandingId (t : Ledger) (formId landingId : string)
    : option SubmissionRow :=
  find (fun r => String.eqb (row_form_id r) formId
                 && match row_landing_id r with
                    | Some l => String.eqb l landingId
                    | None => false
                    end) t.

Record UpsertParams := {
  up_formId : string;
  up_responseToken : string;
  up_landingId : option string;
  up_submittedAt : option string;
  up_lastEventId : option string;
  up_lastEventType : option string;
  up_amoLeadId : option Z;
  up_amoContactId : option Z;
  up_lastPayload : Payload
}.

(** SQL [COALESCE(a, b)]. *)
Definition COALESCE {A} (a b : option A) : option A :=
  match a with Some _ => a | None => b end.

(** The row proposed for insertion: the parameter list of the statement.
    A timestamp is kept as the string [new Date] parses. *)
Definition EXCLUDED (p : UpsertParams) : SubmissionRow :=
  {| row_form_id := up_formId p;
     row_response_token := up_responseToken p;
     row_landing_id := up_landingId p;
     row_submitted_at := if Js.truthy (up_submittedAt p) then up_submittedAt p else None;
     row_last_event_id := up_lastEventId p;
     row_last_event_type := up_lastEventType p;
     row_amo_lead_id := up_amoLeadId p;
     row_amo_contact_id := up_amoContactId p;
     row_last_payload := up_lastPayload p |}.

(** [ON CONFLICT (response_token) DO UPDATE SET ...] *)
Definition do_update (old excl : SubmissionRow) : SubmissionRow :=
  {| row_form_id := row_form_id excl;
     row_response_token := row_response_token old;
     row_landing_id := COALESCE (row_landing_id excl) (row_landing_id old);
     row_submitted_at := COALESCE (row_submitted_at excl) (row_submitted_at old);
     row_last_event_id := COALESCE (row_last_event_id excl) (row_last_event_id old);
     row_last_event_type := COALESCE (row_last_event_type excl) (row_last_event_type old);
     row_amo_lead_id := COALESCE (row_amo_lead_id excl) (row_amo_lead_id old);
     row_amo_contact_id := COALESCE (row_amo_contact_id excl) (row_amo_contact_id old);
     row_last_payload := row_last_payload excl |}.

Definition upsertSubmission (p : UpsertParams) (t : Ledger) : Ledger :=
  match getSubmissionByToken t (up_responseToken p) with
  | Some old =>
      do_update old (EXCLUDED p)
        :: List.filter (fun r => negb (has_token (up_responseToken p) r)) t
  | None => EXCLUDED p :: t
  end.

Definition ledger_unique (t : Ledger) : Prop :=
  NoDup (map row_response_token t).

(** ** The CRM client ([src/amocrm.ts]) *)

Record AmoConfig := {
  baseUrl : string;
  clientId : option string;
  clientSecret : option string;
  redirectUri : option string;
  accessToken : option string;
  refreshToken : option string;
  pipelineId : Z;
  initialStatusId : option Z
}.

Definition KV_ACCESS : string := "amocrm.access_token".
Definition KV_REFRESH : string := "amocrm.refresh_token".

Inductive Method := POST | PATCH.

(** The path of the request URL, resolved against [config.baseUrl]. *)
Inductive Endpoint :=
| EpToken                      (* /oauth2/access_token *)
| EpContacts                   (* /api/v4/contacts *)
| EpLeads                      (* /api/v4/leads *)
| EpLeadLink (leadId : Z)      (* /api/v4/leads/<leadId>/link *)
| EpLeadNotes (leadId : Z).    (* /api/v4/leads/<leadId>/notes *)

Record ContactCustomField := {
  ccf_field_id : Z;
  ccf_value : string;
  ccf_enum_id : Z
}.

(** The JSON bodies, before [JSON.stringify]; an empty custom-field list
    stands for the omitted [custom_fields_values] member. *)
Inductive Body :=
| BodyRefresh (client_id client_secret : option string) (refresh_token : string)
    (redirect_uri : option string)
| BodyContactCreate (name : string) (custom_fields_values : list ContactCustomField)
| BodyContactUpdate (id : Z) (name : option string)
    (custom_fields_values : list ContactCustomField)
| BodyLeadCreate (name : string) (pipeline_id : Z) (status_id : option Z)
| BodyLink (to_entity_id : Z)
| BodyNote (text : string)
| BodyLeadFields (id : Z) (custom_fields_values : list LeadCustomFieldValue).

Record Request := {
  rq_method : Method;
  rq_base : string;
  rq_endpoint : Endpoint;
  (** the [authorization: Bearer] header, absent on the token exchange *)
  rq_bearer : option string;
  rq_body : Body
}.

(** What the client reads of a parsed response body. *)
Record Json := {
  js_contact_id : option Z;        (* json._embedded?.contacts?.[0]?.id *)
  js_lead_id : option Z;           (* json._embedded?.leads?.[0]?.id *)
  js_access_token : string;
  js_refresh_token : string
}.

Record Response := {
  status : Z;
  text : string;
  (** [None]: the body is not JSON and [res.json()] rejects *)
  json : option Json
}.

Definition ok (res : Response) : bool :=
  (200 <=? status res) && (status res <=? 299).

(** A request as it left the process: through [amoFetch], with the value of
    its [retryOn401] parameter, or from [maybeRefresh]. *)
Inductive Event :=
| Sent (retryOn401 : bool) (r : Request)
| SentRefresh (r : Request).

Inductive Operation :=
| ContactCreate | ContactUpdate | LeadCreate | Link | NoteCreate | LeadUpdate.

(** The [Error]s thrown, one constructor per message template. *)
Inductive Error :=
| NoAccessToken                                    (* "No amoCRM access token. ..." *)
| RefreshFailed (status : Z) (text : string)       (* "amoCRM refresh failed: <status> <text>" *)
| RemoteFailed (op : Operation) (status : Z) (text : string)
                                                   (* "amoCRM <op> failed: <status> <text>" *)
| NoCreatedId (op : Operation)                     (* "amoCRM did not return created <x> id." *)
| FetchRejected                                    (* [fetch] rejects: no response *)
| InvalidJson.                                     (* [res.json()] rejects *)

Record World := {
  kv : gmap string string;
  submissions : Ledger;
  (** the responses the remote side gives to the coming requests, in order;
      when none is left the request gets no response *)
  remote : list Response;
  (** the requests sent so far, oldest first *)
  sent : list Event
}.

Inductive Outcome (A : Type) :=
| Return (a : A)
| Throw (e : Error).
Arguments Return {A} a.
Arguments Throw {A} e.

Definition M (A : Type) : Type := World -> Outcome A * World.

Definition ret {A} (a : A) : M A := fun w => (Return a, w).
Definition throw {A} (e : Error) : M A := fun w => (Throw e, w).
Definition bind {A B} (c : M A) (k : A -> M B) : M B :=
  fun w =>
    match c w with
    | (Return a, w') => k a w'
    | (Throw e, w') => (Throw e, w')
    end.

Notation "'await' x <- c ; k" := (bind c (fun x => k))
  (at level 10, x name, c at level 100, k at level 200).

Definition kvGet (key : string) : M (option string) :=
  fun w => (Return (kv w !! key), w).

Definition kvSet (key value : string) : M unit :=
  fun w => (Return tt,
            {| kv := <[key := value]> (kv w); submissions := submissions w;
               remote := remote w; sent := sent w |}).

Definition fetch (ev : Event) : M Response :=
  fun w =>
    match remote w with
    | [] => (Throw FetchRejected,
             {| kv := kv w; submissions := submissions w;
                remote := []; sent := sent w ++ [ev] |})
    | res :: rest => (Return res,
             {| kv := kv w; submissions := submissions w;
                remote := rest; sent := sent w ++ [ev] |})
    end.

Definition getAccessToken (config : AmoConfig) : M string :=
  await fromDb <- kvGet KV_ACCESS;
  match fromDb with
  | Some (String c t) => ret (String c t)
  | _ =>
      match accessToken config with
      | Some (String c t) => ret (String c t)
      | _ => throw NoAccessToken
      end
  end.

Definition maybeRefresh (config : AmoConfig) : M unit :=
  let hasOAuth := Js.truthy (clientId config) && Js.truthy (clientSecret config)
                  && Js.truthy (redirectUri config) in
  if negb hasOAuth then ret tt
  else
    await fromDb <- kvGet KV_REFRESH;
    let refreshToken := COALESCE fromDb (refreshToken config) in
    match refreshToken with
    | Some (String c t) =>
        await res <- fetch (SentRefresh
          {| rq_method := POST; rq_base := baseUrl config; rq_endpoint := EpToken;
             rq_bearer := None;
             rq_body := BodyRefresh (clientId config) (clientSecret config)
                          (String c t) (redirectUri config) |});
        if negb (ok res) then throw (RefreshFailed (status res) (text res))
        else
          match json res with
          | None => throw InvalidJson
          | Some j =>
              await _ <- kvSet KV_ACCESS (js_access_token j);
              kvSet KV_REFRESH (js_refresh_token j)
          end
    | _ => ret tt
    end.

(** [amoFetch]: the recursive call passes [retryOn401 := false], which is
    what makes the recursion end; callers leave the parameter out and get
    its default [true]. *)
Equations amoFetch (config : AmoConfig) (retryOn401 : bool) (input : Endpoint)
    (method : Method) (body : Body) (w : World) : Outcome Response * World
    by wf (Nat.b2n retryOn401) lt :=
  amoFetch config retryOn401 input method body w
    with getAccessToken config w => {
    | (Throw e, w1) => (Throw e, w1)
    | (Return token, w1)
        with fetch (Sent retryOn401
                      {| rq_method := method; rq_base := baseUrl config;
                         rq_endpoint := input; rq_bearer := Some token;
                         rq_body := body |}) w1 => {
        | (Throw e, w2) => (Throw e, w2)
        | (Return res, w2) with status res =? 401, retryOn401 => {
            | true, true with maybeRefresh config w2 => {
                | (Throw e, w3) => (Throw e, w3)
                | (Return _, w3) => amoFetch config false input method body w3 }
            | _, _ => (Return res, w2) } } }.

Definition buildContactCustomFields (phone email : option string)
    : list ContactCustomField :=
  (match phone with
   | Some (String c t) =>
       [ {| ccf_field_id := 214683; ccf_value := String c t; ccf_enum_id := 115921 |} ]
   | _ => []
   end)
  ++
  (match email with
   | Some (String c t) =>
       [ {| ccf_field_id := 214685; ccf_value := String c t; ccf_enum_id := 115933 |} ]
   | _ => []
   end).

(** [if (!res.ok) throw new Error(`amoCRM <op> failed: ${res.status} ${await res.text()}`)] *)
Definition check_ok (op : Operation) (res : Response) : M unit :=
  if negb (ok res) then throw (RemoteFailed op (status res) (text res)) else ret tt.

(** [const id = json._embedded?.<kind>?.[0]?.id; if (!id) throw ...; return id] *)
Definition created_id (op : Operation) (read : Json -> option Z) (res : Response) : M Z :=
  match json res with
  | None => throw InvalidJson
  | Some j =>
      match read j with
      | Some id => if id =? 0 then throw (NoCreatedId op) else ret id
      | None => throw (NoCreatedId op)
      end
  end.

Definition createContact (config : AmoConfig) (name email phone : option string) : M Z :=
  let customFieldsValues := buildContactCustomFields phone email in
  await res <- amoFetch config true EpContacts POST
    (BodyContactCreate
       (Js.nullish name (Js.nullish email (Js.nullish phone "Typeform contact")))
       customFieldsValues);
  await _ <- check_ok ContactCreate res;
  created_id ContactCreate js_contact_id res.

Definition updateContact (config : AmoConfig) (contactId : Z)
    (name email phone : option string) : M unit :=
  let customFieldsValues := buildContactCustomFields phone email in
  if negb (Js.truthy name) && match customFieldsValues with [] => true | _ => false end
  then ret tt
  else
    await res <- amoFetch config true EpContacts PATCH
      (BodyContactUpdate contactId (if Js.truthy name then name else None)
         customFieldsValues);
    check_ok ContactUpdate res.

Definition createLead (config : AmoConfig) (name : string) : M Z :=
  await res <- amoFetch config true EpLeads POST
    (BodyLeadCreate name (pipelineId config)
       (if truthyZ (initialStatusId config) then initialStatusId config else None));
  await _ <- check_ok LeadCreate res;
  created_id LeadCreate js_lead_id res.

Definition linkLeadToContact (config : AmoConfig) (leadId contactId : Z) : M unit :=
  await res <- amoFetch config true (EpLeadLink leadId) POST (BodyLink contactId);
  check_ok Link res.

Definition addLeadNote (config : AmoConfig) (leadId : Z) (text : string) : M unit :=
  await res <- amoFetch config true (EpLeadNotes leadId) POST (BodyNote text);
  check_ok NoteCreate res.

Definition updateLeadCustomFields (config : AmoConfig) (leadId : Z)
    (customFields : list LeadCustomFieldValue) : M unit :=
  match customFields with
  | [] => ret tt
  | _ =>
      await res <- amoFetch config true EpLeads PATCH (BodyLeadFields leadId customFields);
      check_ok LeadUpdate res
  end.

(** [`Typeform: ${contact.email ?? contact.phone ?? "submission"}`] *)
Definition leadName (contact : ContactBits) : string :=
  "Typeform: " ++
  Js.nullish (cb_email contact) (Js.nullish (cb_phone contact) "submission").

(** [!!(contact.email || contact.phone || contact.name)] *)
Definition hasContactBits (contact : ContactBits) : bool :=
  Js.truthy (cb_email contact) || Js.truthy (cb_phone contact)
  || Js.truthy (cb_name contact).

Definition createOrUpdateByTypeform (config : AmoConfig)
    (existingLeadId existingContactId : option Z) (typeformSummary : string)
    (leadCustomFields : list LeadCustomFieldValue) (contact : ContactBits)
    : M (Z * option Z) :=
  await leadId <-
    match existingLeadId with
    | Some id => ret id
    | None => createLead config (leadName contact)
    end;
  let isNewLead := negb (truthyZ existingLeadId) in
  let hasContactBits := hasContactBits contact in
  await contactId <-
    (if isNewLead then
       if hasContactBits then
         await c <- createContact config (cb_name contact) (cb_email contact)
                      (cb_phone contact);
         ret (Some c)
       else ret None
     else
       await created <-
         (if negb (truthyZ existingContactId) && hasContactBits then
            await c <- createContact config (cb_name contact) (cb_email contact)
                         (cb_phone contact);
            ret (Some c)
          else ret existingContactId);
       await _ <-
         (match created with
          | Some c =>
              if truthyZ created && hasContactBits then
                updateContact config c (cb_name contact) (cb_email contact)
                  (cb_phone contact)
              else ret tt
          | None => ret tt
          end);
       ret created);
  await _ <-
    (match contactId with
     | Some c => if truthyZ contactId then linkLeadToContact config leadId c else ret tt
     | None => ret tt
     end);
  await _ <-
    (match leadCustomFields with
     | [] => ret tt
     | _ => updateLeadCustomFields config leadId leadCustomFields
     end);
  await _ <- addLeadNote config leadId typeformSummary;
  ret (leadId, contactId).

(** ** The webhook handler ([src/index.ts]) *)

Inductive ReplyError :=
| InvalidPayload                  (* "Invalid payload" *)
| Failed (e : Error).             (* the message of the caught error *)

(** [res.status(s).json({ ok, leadId, contactId, error })]; an [undefined]
    member is left out of the JSON. *)
Record Reply := {
  rp_status : Z;
  rp_ok : bool;
  rp_leadId : option Z;
  rp_contactId : option Z;
  rp_error : option ReplyError
}.

(** Line 61: [existing && payload.event_id &&
    existing.last_event_id === payload.event_id]. *)
Definition isDuplicate (existing : option SubmissionRow) (payload : Payload) : bool :=
  match existing, event_id payload with
  | Some row, Some (String c t) =>
      match row_last_event_id row with
      | Some l => String.eqb l (String c t)
      | None => false
      end
  | _, _ => false
  end.

Definition lookupExisting (t : Ledger) (responseToken formId : string)
    (landingId : option string) : option SubmissionRow :=
  match getSubmissionByToken t responseToken with
  | Some row => Some row
  | None =>
      match landingId with
      | Some (String c s) => getLatestSubmissionByLandingId t formId (String c s)
      | _ => None
      end
  end.

Definition write_ledger (p : UpsertParams) (w : World) : World :=
  {| kv := kv w; submissions := upsertSubmission p (submissions w);
     remote := remote w; sent := sent w |}.

(** The new-work part of the handler, after the duplicate check. *)
Definition reconcile (config : AmoConfig) (fieldMap : list (string * FieldMapping))
    (payload : Payload) (fr : FormResponse) (responseToken formId : string)
    (existing : option SubmissionRow) (w : World) : Reply * World :=
  let typeformSummary := stringifyAnswers fr in
  let contact := extractContactBits fr in
  let leadCustomFields := buildLeadCustomFields fieldMap fr in
  match createOrUpdateByTypeform config
          (existing ≫= row_amo_lead_id) (existing ≫= row_amo_contact_id)
          typeformSummary leadCustomFields contact w with
  | (Throw e, w') =>
      ({| rp_status := 500; rp_ok := false; rp_leadId := None; rp_contactId := None;
          rp_error := Some (Failed e) |}, w')
  | (Return (leadId, contactId), w') =>
      ({| rp_status := 200; rp_ok := true; rp_leadId := Some leadId;
          rp_contactId := contactId; rp_error := None |},
       write_ledger
         {| up_formId := formId; up_responseToken := responseToken;
            up_landingId := landing_id fr; up_submittedAt := submitted_at fr;
            up_lastEventId := event_id payload; up_lastEventType := event_type payload;
            up_amoLeadId := Some leadId; up_amoContactId := contactId;
            up_lastPayload := payload |} w')
  end.

Definition invalid_payload : Reply :=
  {| rp_status := 400; rp_ok := false; rp_leadId := None; rp_contactId := None;
     rp_error := Some InvalidPayload |}.

(** The body of the [POST /webhooks/typeform] route from the parsed payload
    on (lines 39 to 120). *)
Definition handle (config : AmoConfig) (fieldMap : list (string * FieldMapping))
    (payload : Payload) (w : World) : Reply * World :=
  match form_response payload with
  | None => (invalid_payload, w)
  | Some fr =>
      match token fr, form_id fr with
      | Some (String c1 t1), Some (String c2 t2) =>
          let responseToken := String c1 t1 in
          let formId := String c2 t2 in
          let existing :=
            lookupExisting (submissions w) responseToken formId (landing_id fr) in
          if isDuplicate existing payload then
            ({| rp_status := 200; rp_ok := true;
                rp_leadId := existing ≫= row_amo_lead_id;
                rp_contactId := None; rp_error := None |}, w)
          else reconcile config fieldMap payload fr responseToken formId existing w
      | _, _ => (invalid_payload, w)
      end
  end.

(** Delivering the same payload [n] times in a row; the replies, oldest
    first, and the final state. *)
Fixpoint replay (config : AmoConfig) (fieldMap : list (string * FieldMapping))
    (payload : Payload) (n : nat) (w : World) : list Reply * World :=
  match n with
  | O => ([], w)
  | S n' =>
      let '(r, w1) := handle config fieldMap payload w in
      let '(rs, w2) := replay config fieldMap payload n' w1 in
      (r :: rs, w2)
  end.

(** ** Notions used to state the properties *)

(** *** Contact extraction, as the design describes it *)

(** A value that is there: defined and not empty. *)
Definition carried (o : option string) : option string :=
  if Js.truthy o then o else None.

(** The name an answer supplies: a text-type answer whose trimmed text is
    longer than one character. *)
Definition answer_name (a : Answer) : option string :=
  match ans_text a with
  | Some t =>
      if String.eqb (ans_type a) "text" && (1 <? String.length (Js.trim t))%nat
      then Some (Js.trim t) else None
  | None => None
  end.

(** The first answer that supplies a value. *)
Definition first_answer (supply : Answer -> option string) (l : list Answer)
    : option string :=
  head (omap supply l).

(** Answers first, the hidden parameter [key] only when no answer supplies. *)
Definition contact_slot (supply : Answer -> option string) (key : string)
    (fr : FormResponse) : option string :=
  match first_answer supply (answers fr) with
  | Some v => Some v
  | None => carried (hidden_get (hidden fr) key)
  end.

(** *** The mapper's rules as one ordered list of [put] calls *)

Definition hidden_rule (kv : string * string) : list PutParams :=
  match table_get HIDDEN_TO_LEAD_FIELD_ID (fst kv) with
  | None => []
  | Some fieldId =>
      if fieldId =? 0 then []
      else if Js.blank (snd kv) then []
      else [ {| pp_fieldId := fieldId; pp_value := Some (snd kv); pp_enumId := None |} ]
  end.

Definition static_rule (a : Answer) : list PutParams :=
  let key := answer_key a in
  (if includes_key DEFAULT_REFS.fullName key
   then [ {| pp_fieldId := LEAD_FIELD.fullName; pp_value := ans_text a; pp_enumId := None |} ]
   else []) ++
  (if includes_key DEFAULT_REFS.childName key
   then [ {| pp_fieldId := LEAD_FIELD.childName1; pp_value := ans_text a; pp_enumId := None |} ]
   else []) ++
  (if includes_key DEFAULT_REFS.childDob key
   then [ {| pp_fieldId := LEAD_FIELD.childDob1; pp_value := toAmoDateTime (ans_date a);
             pp_enumId := None |} ]
   else []) ++
  (if includes_key DEFAULT_REFS.desiredProgram key
   then [ {| pp_fieldId := LEAD_FIELD.desiredProgram; pp_value := None;
             pp_enumId := mapDesiredProgramEnum (ans_choice_label a) |} ]
   else []) ++
  (if includes_key DEFAULT_REFS.currentEducation key
   then [ {| pp_fieldId := LEAD_FIELD.currentEducation; pp_value := ans_choice_label a;
             pp_enumId := None |} ]
   else []).

Definition dynamic_rule (fieldMap : list (string * FieldMapping)) (a : Answer)
    : list PutParams :=
  match table_get fieldMap (answer_key a) with
  | None => []
  | Some mapping =>
      if negb (String.eqb (fm_entity mapping) "lead") then []
      else [ {| pp_fieldId := fm_fieldId mapping; pp_value := getAnswerString a;
                pp_enumId := None |} ]
  end.

Definition hidden_rules (fr : FormResponse) : list PutParams :=
  flat_map hidden_rule (hidden fr).
Definition static_rules (fr : FormResponse) : list PutParams :=
  flat_map static_rule (answers fr).
Definition dynamic_rules (fieldMap : list (string * FieldMapping)) (fr : FormResponse)
    : list PutParams :=
  flat_map (dynamic_rule fieldMap) (answers fr).

(** What a list of rules, applied in order, leaves for field [k]: the entry
    of the last rule that targets [k] and is not skipped. *)
Definition assigned (k : Z) (ps : list PutParams) : option LeadCustomFieldValue :=
  last (map put_entry
          (List.filter (fun p => (pp_fieldId p =? k) && negb (put_skips p)) ps)).

(** The assignment for field [k] in the mapper's result. *)
Definition assignment (k : Z) (out : list LeadCustomFieldValue)
    : option LeadCustomFieldValue :=
  find (fun e => lcf_field_id e =? k) out.

(** *** Observing the requests of a run *)

(** The events added to the log between two states. *)
Definition new_events (w w' : World) : list Event :=
  drop (length (sent w)) (sent w').

(** A remote CRM call: a request entering [amoFetch] from an object
    operation (not the replay after a refresh, nor the token exchange). *)
Definition Call : Type := Method * Endpoint * Body.

Definition call_of (ev : Event) : option Call :=
  match ev with
  | Sent true r => Some (rq_method r, rq_endpoint r, rq_body r)
  | _ => None
  end.

Definition calls (evs : list Event) : list Call := omap call_of evs.

(** Every request to the object API among the events satisfies [P]. *)
Definition event_ok (P : Call -> Prop) (ev : Event) : Prop :=
  match ev with
  | Sent _ r => P (rq_method r, rq_endpoint r, rq_body r)
  | SentRefresh r => rq_endpoint r = EpToken
  end.

Definition is_lead_create (c : Call) : Prop :=
  match c with
  | (_, _, BodyLeadCreate _ _ _) => True
  | _ => False
  end.

Definition is_contact_create (c : Call) : bool :=
  match c with
  | (_, _, BodyContactCreate _ _) => true
  | _ => false
  end.

(** Line 41: [!responseToken || !formId]. *)
Definition malformed (payload : Payload) : bool :=
  negb (Js.truthy (form_response payload ≫= token))
  || negb (Js.truthy (form_response payload ≫= form_id)).

(** A computation that never writes the submissions table, only appends to
    the request log, and sends to the object API only requests satisfying
    [P], whatever its outcome. *)
Definition respects {A} (P : Call -> Prop) (c : M A) : Prop :=
  forall w r w', c w = (r, w') ->
    submissions w' = submissions w
    /\ exists evs, sent w' = (sent w ++ evs)%list /\ Forall (event_ok P) evs.

(** The request [amoFetch] builds. *)
Definition request_of (config : AmoConfig) (method : Method) (input : Endpoint)
    (body : Body) (token : string) : Request :=
  {| rq_method := method; rq_base := baseUrl config; rq_endpoint := input;
     rq_bearer := Some token; rq_body := body |}.

Definition is_refresh (ev : Event) : bool :=
  match ev with SentRefresh _ => true | _ => false end.

Definition is_replay (ev : Event) : bool :=
  match ev with Sent false _ => true | _ => false end.

Definition is_first (ev : Event) : bool :=
  match ev with Sent true _ => true | _ => false end.

Definition count (f : Event -> bool) (evs : list Event) : nat :=
  length (List.filter f evs).

(** The shape of the events of one call through [amoFetch]: nothing (no
    access token), or the first attempt alone, or the first attempt, at
    most one token exchange, and at most one replay. *)
Inductive call_events (config : AmoConfig) (method : Method) (input : Endpoint)
    (body : Body) : list Event -> Prop :=
| ce_none : call_events config method input body []
| ce_first token rf rp :
    (rf = [] \/ exists q, rf = [SentRefresh q]) ->
    (rp = [] \/ exists token2,
        rp = [Sent false (request_of config method input body token2)]) ->
    call_events config method input body
      (Sent true (request_of config method input body token) :: rf ++ rp)%list.


(** *** The remote CRM calls of the object operations *)

Definition lead_create_call (config : AmoConfig) (name : string) : Call :=
  (POST, EpLeads,
   BodyLeadCreate name (pipelineId config)
     (if truthyZ (initialStatusId config) then initialStatusId config else None)).

Definition contact_create_call (contact : ContactBits) : Call :=
  (POST, EpContacts,
   BodyContactCreate
     (Js.nullish (cb_name contact)
        (Js.nullish (cb_email contact) (Js.nullish (cb_phone contact) "Typeform contact")))
     (buildContactCustomFields (cb_phone contact) (cb_email contact))).

Definition contact_update_call (contactId : Z) (contact : ContactBits) : Call :=
  (PATCH, EpContacts,
   BodyContactUpdate contactId
     (if Js.truthy (cb_name contact) then cb_name contact else None)
     (buildContactCustomFields (cb_phone contact) (cb_email contact))).

Definition link_call (leadId contactId : Z) : Call :=
  (POST, EpLeadLink leadId, BodyLink contactId).

Definition lead_fields_call (leadId : Z) (fields : list LeadCustomFieldValue) : Call :=
  (PATCH, EpLeads, BodyLeadFields leadId fields).

Definition note_call (leadId : Z) (text : string) : Call :=
  (POST, EpLeadNotes leadId, BodyNote text).

(** Whether a reconciliation creates a contact: line 411 for a new lead,
    line 414 otherwise. *)
Definition creates_contact (existingLeadId existingContactId : option Z)
    (contact : ContactBits) : bool :=
  (negb (truthyZ existingLeadId) || negb (truthyZ existingContactId))
  && hasContactBits contact.

(** The calls of the contact part of a reconciliation that ended with
    [contactId] (lines 409 to 420). *)
Definition contact_calls (existingLeadId existingContactId : option Z)
    (contact : ContactBits) (contactId : option Z) : list Call :=
  (if creates_contact existingLeadId existingContactId contact
   then [contact_create_call contact] else []) ++
  (match contactId with
   | Some c =>
       if truthyZ existingLeadId && truthyZ contactId && hasContactBits contact
       then [contact_update_call c contact] else []
   | None => []
   end).

(** The remote CRM calls of a reconciliation that returned
    [(leadId, contactId)], in order. *)
Definition reconciliation_calls (config : AmoConfig)
    (existingLeadId existingContactId : option Z) (typeformSummary : string)
    (leadCustomFields : list LeadCustomFieldValue) (contact : ContactBits)
    (leadId : Z) (contactId : option Z) : list Call :=
  (match existingLeadId with
   | None => [lead_create_call config (leadName contact)]
   | Some _ => []
   end) ++
  contact_calls existingLeadId existingContactId contact contactId ++
  (match contactId with
   | Some c => if truthyZ contactId then [link_call leadId c] else []
   | None => []
   end) ++
  (match leadCustomFields with
   | [] => []
   | _ => [lead_fields_call leadId leadCustomFields]
   end) ++
  [note_call leadId typeformSummary].

(** The mapper's entries keep value and enum id apart: a rule passes one or
    the other. *)
Definition rule_wf (p : PutParams) : Prop :=
  pp_enumId p = None \/ pp_value p = None.

(** An entry whose values, when present, are trimmed and not empty. *)
Definition entry_clean (e : LeadCustomFieldValue) : Prop :=
  forall cv v, In cv (lcf_values e) -> cv_value cv = Some v ->
               Js.trimmed v /\ v <> ""%string.

(** The keys of [outByFieldId] are the field ids of its entries. *)
Definition keyed (out : OutMap) : Prop :=
  Forall (fun kv => lcf_field_id (snd kv) = fst kv) out.

(** ** Sample deliveries *)

Module Sample.

(** A client with OAuth credentials and static tokens. *)
Definition config : AmoConfig :=
  {| baseUrl := "https://example.amocrm.ru";
     clientId := Some "client"; clientSecret := Some "secret";
     redirectUri := Some "https://example.org/cb";
     accessToken := Some "access-0"; refreshToken := Some "refresh-0";
     pipelineId := 10482294; initialStatusId := None |}.

Definition email_answer : Answer :=
  {| ans_type := "email"; ans_field_id := "q1"; ans_field_ref := Some "ref-email";
     ans_text := None; ans_email := Some "ann@example.org"; ans_phone_number := None;
     ans_boolean := None; ans_number := None; ans_date := None;
     ans_choice_label := None; ans_choices_labels := None |}.

Definition source_answer : Answer :=
  {| ans_type := "text"; ans_field_id := "q2"; ans_field_ref := Some "ref-source";
     ans_text := Some "  newsletter "; ans_email := None; ans_phone_number := None;
     ans_boolean := None; ans_number := None; ans_date := None;
     ans_choice_label := None; ans_choices_labels := None |}.

Definition blank_answer : Answer :=
  {| ans_type := "text"; ans_field_id := "q3"; ans_field_ref := Some "ref-term";
     ans_text := Some "   "; ans_email := None; ans_phone_number := None;
     ans_boolean := None; ans_number := None; ans_date := None;
     ans_choice_label := None; ans_choices_labels := None |}.

(** [utm_source] is mapped from the hidden parameter and, through the
    configured table, from the answer [ref-source]. *)
Definition fieldMap : list (string * FieldMapping) :=
  [ ("ref-source", {| fm_entity := "lead"; fm_fieldId := 214697 |});
    ("ref-term", {| fm_entity := "lead"; fm_fieldId := 214699 |}) ].

Definition form : FormResponse :=
  {| form_id := Some "form-1"; token := Some "token-1"; landing_id := None;
     submitted_at := Some "2024-05-01T10:00:00Z";
     hidden := [("utm_source", "ads"); ("email", "hidden@example.org")];
     definition_fields := [];
     answers := [email_answer; source_answer; blank_answer] |}.

Definition event : Payload :=
  {| event_id := Some "event-1"; event_type := Some "form_response";
     form_response := Some form |}.

(** The same delivery without an event id, and with an empty one. *)
Definition event_no_id : Payload :=
  {| event_id := None; event_type := Some "form_response";
     form_response := Some form |}.

Definition event_empty_id : Payload :=
  {| event_id := Some ""; event_type := Some "form_response";
     form_response := Some form |}.

Definition event_no_token : Payload :=
  {| event_id := Some "event-1"; event_type := Some "form_response";
     form_response :=
       Some {| form_id := Some "form-1"; token := None; landing_id := None;
               submitted_at := None; hidden := []; definition_fields := [];
               answers := [] |} |}.

(** The record left by a processed [event-1]. *)
Definition row_done : SubmissionRow :=
  {| row_form_id := "form-1"; row_response_token := "token-1";
     row_landing_id := Some "landing-1";
     row_submitted_at := Some "2024-05-01T10:00:00Z";
     row_last_event_id := Some "event-1"; row_last_event_type := Some "form_response";
     row_amo_lead_id := Some 501; row_amo_contact_id := Some 77;
     row_last_payload := event |}.

(** A record with a lead and no contact, left by an earlier event. *)
Definition row_lead_only : SubmissionRow :=
  {| row_form_id := "form-1"; row_response_token := "token-1";
     row_landing_id := None; row_submitted_at := None;
     row_last_event_id := Some "event-0"; row_last_event_type := Some "form_response";
     row_amo_lead_id := Some 501; row_amo_contact_id := None;
     row_last_payload := event_no_id |}.

(** A record whose stored event id is the empty string. *)
Definition row_empty_id : SubmissionRow :=
  {| row_form_id := "form-1"; row_response_token := "token-1";
     row_landing_id := None; row_submitted_at := None;
     row_last_event_id := Some ""; row_last_event_type := Some "form_response";
     row_amo_lead_id := Some 501; row_amo_contact_id := Some 77;
     row_last_payload := event_empty_id |}.

Definition no_json : Json :=
  {| js_contact_id := None; js_lead_id := None;
     js_access_token := ""; js_refresh_token := "" |}.

Definition ok_plain : Response := {| status := 200; text := "{}"; json := Some no_json |}.
Definition ok_lead (id : Z) : Response :=
  {| status := 200; text := "lead";
     json := Some {| js_contact_id := None; js_lead_id := Some id;
                     js_access_token := ""; js_refresh_token := "" |} |}.
Definition ok_contact (id : Z) : Response :=
  {| status := 200; text := "contact";
     json := Some {| js_contact_id := Some id; js_lead_id := None;
                     js_access_token := ""; js_refresh_token := "" |} |}.
Definition server_error : Response :=
  {| status := 500; text := "Internal Server Error"; json := None |}.

Definition world (t : Ledger) (responses : list Response) : World :=
  {| kv := ∅; submissions := t; remote := responses; sent := [] |}.

(** The CRM answers every call of a new-lead reconciliation. *)
Definition world_new : World :=
  world [] [ok_lead 501; ok_contact 77; ok_plain; ok_plain; ok_plain].

(** The record has the event already. *)
Definition world_done : World := world [row_done] [].

(** The record has a lead and no contact; the CRM answers every call. *)
Definition world_lead_only : World :=
  world [row_lead_only] [ok_contact 78; ok_plain; ok_plain; ok_plain; ok_plain].

(** The CRM fails the first call. *)
Definition world_failing : World := world [row_lead_only] [server_error].

(** The stored event id is empty; the CRM answers every call. *)
Definition world_empty_id : World :=
  world [row_empty_id] [ok_plain; ok_plain; ok_plain; ok_plain].



Definition upsert_without_ids : UpsertParams :=
  {| up_formId := "form-2"; up_responseToken := "token-1";
     up_landingId := None; up_submittedAt := None;
     up_lastEventId := Some "event-2"; up_lastEventType := None;
     up_amoLeadId := None; up_amoContactId := None;
     up_lastPayload := event_no_id |}.

End Sample.

(** ** Further notions: the ledger over many deliveries *)

(** The state after delivering the payloads one after the other. *)
Definition deliver_all (config : AmoConfig) (fieldMap : list (string * FieldMapping))
    (payloads : list Payload) (w : World) : World :=
  fold_left (fun w' payload => snd (handle config fieldMap payload w')) payloads w.

(** Every record carries a lead id. *)
Definition rows_have_lead (t : Ledger) : Prop :=
  Forall (fun r => is_Some (row_amo_lead_id r)) t.

(** The record the upsert of [p] leaves for its token. *)
Definition upserted_row (p : UpsertParams) (t : Ledger) : SubmissionRow :=
  match getSubmissionByToken t (up_responseToken p) with
  | Some old => do_update old (EXCLUDED p)
  | None => EXCLUDED p
  end.

Module More.

(** A first event of a second response, from the landing page of the record
    [Sample.row_done]. *)
Definition form_other : FormResponse :=
  {| form_id := Some "form-1"; token := Some "token-2";
     landing_id := Some "landing-1"; submitted_at := None;
     hidden := []; definition_fields := []; answers := [] |}.

Definition event_other : Payload :=
  {| event_id := Some "event-9"; event_type := Some "form_response";
     form_response := Some form_other |}.

Definition world_landing : World :=
  Sample.world [Sample.row_done] [Sample.ok_plain; Sample.ok_plain].

Definition upsert_other_token : UpsertParams :=
  {| up_formId := "form-1"; up_responseToken := "token-2";
     up_landingId := Some "landing-1"; up_submittedAt := Some "";
     up_lastEventId := None; up_lastEventType := None;
     up_amoLeadId := Some 502; up_amoContactId := None;
     up_lastPayload := event_other |}.

(** The store holds an access token. *)
Definition world_stored : World :=
  {| kv := <[KV_ACCESS := "stored"]> ∅; submissions := [];
     remote := []; sent := [] |}.

End More.

(** No record stores 0 as a CRM id. *)
Definition ids_nonzero (t : Ledger) : Prop :=
  Forall (fun r => row_amo_lead_id r <> Some 0 /\ row_amo_contact_id r <> Some 0) t.

(** The parameters of the handler's upsert (lines 87 to 98). *)
Definition handler_upsert (payload : Payload) (fr : FormResponse)
    (responseToken formId : string) (leadId : Z) (contactId : option Z) : UpsertParams :=
  {| up_formId := formId; up_responseToken := responseToken;
     up_landingId := landing_id fr; up_submittedAt := submitted_at fr;
     up_lastEventId := event_id payload; up_lastEventType := event_type payload;
     up_amoLeadId := Some leadId; up_amoContactId := contactId;
     up_lastPayload := payload |}.

(** ** Further notions: the requests on the wire *)

(** A computation all of whose new log entries satisfy [Q], whatever its
    outcome. *)
Definition emits {A} (Q : Event -> Prop) (c : M A) : Prop :=
  forall w r w', c w = (r, w') ->
    exists evs, sent w' = (sent w ++ evs)%list /\ Forall Q evs.

(** A request of the object API is authenticated and goes to the configured
    host; a token exchange goes there too, without a bearer token and with
    the client credentials and a non-empty refresh token. *)
Definition well_addressed (config : AmoConfig) (ev : Event) : Prop :=
  match ev with
  | Sent _ q =>
      rq_base q = baseUrl config
      /\ rq_endpoint q <> EpToken
      /\ exists token, rq_bearer q = Some token /\ token <> ""%string
  | SentRefresh q =>
      rq_base q = baseUrl config
      /\ rq_endpoint q = EpToken
      /\ rq_bearer q = None
      /\ exists refresh,
           refresh <> ""%string
           /\ rq_body q = BodyRefresh (clientId config) (clientSecret config) refresh
                            (redirectUri config)
  end.

(** [!!(config.clientId && config.clientSecret && config.redirectUri)] *)
Definition hasOAuth (config : AmoConfig) : bool :=
  Js.truthy (clientId config) && Js.truthy (clientSecret config)
  && Js.truthy (redirectUri config).

(** ** Further notions: the mapper's targets *)



(** ** Further notions: the order of hidden parameters *)

(** The form response with its hidden parameters listed as [h]. *)
Definition with_hidden (fr : FormResponse) (h : list (string * string)) : FormResponse :=
  {| form_id := form_id fr; token := token fr; landing_id := landing_id fr;
     submitted_at := submitted_at fr; hidden := h;
     definition_fields := definition_fields fr; answers := answers fr |}.

(** [k1 <= k2] in the order [Array.prototype.sort] uses on strings. *)
Definition key_le (k1 k2 : string) : Prop := String.leb k1 k2 = true.

(** ** Configuration and the signature check ([src/config.ts]) *)

(** [String.prototype.slice(n)] for [n] within the string or beyond it. *)
Fixpoint slice_from (n : nat) (s : string) : string :=
  match n, s with
  | O, _ => s
  | S n', String _ s' => slice_from n' s'
  | S _, EmptyString => EmptyString
  end.

(** [readEnv]: a variable that is unset or blank is [undefined]; otherwise
    its value, untrimmed. *)
Definition readEnv (env : gmap string string) (name : string) : option string :=
  match env !! name with
  | None => None
  | Some v => if Js.blank v then None else Some v
  end.

(** [mustReadEnv]: throws when [readEnv] gives a falsy value. *)
Definition mustReadEnv (env : gmap string string) (name : string) : option string :=
  match readEnv env name with
  | Some (String c t) => Some (String c t)
  | _ => None
  end.

Definition TYPEFORM_WEBHOOK_SECRET : string := "TYPEFORM_WEBHOOK_SECRET".

Definition signature_prefix : string := "sha256=".

(** What the route answers before or instead of the handler's own reply. *)
Inductive RouteReply :=
| InvalidSignature        (* 401 { ok: false, error: "Invalid signature" } *)
| BodyError               (* 500: [getRawBody] or [JSON.parse] threw *)
| Handled (r : Reply).

Section Route.

(** [crypto.createHmac("sha256", secret).update(rawBody).digest("base64")] *)
Variable hmac_sha256_base64 : string -> string -> string.

(** [JSON.parse(raw.toString("utf8"))] read as a payload; [None] when it
    throws or gives [null], on which line 39 throws. *)
Variable parse : string -> option Payload.

(** [Buffer.from] keeps the code units, so the comparison of the two
    buffers is the comparison of the strings. *)
Definition typeformIsSignatureValid (secret rawBody : string)
    (signatureHeader : option string) : bool :=
  match signatureHeader with
  | Some (String c t) =>
      let header := String c t in
      if negb (Js.startsWith header signature_prefix) then false
      else
        let expected := hmac_sha256_base64 secret rawBody in
        let got := slice_from (String.length signature_prefix) header in
        if negb (String.length expected =? String.length got)%nat then false
        else String.eqb expected got
  | _ => false
  end.

(** The [POST /webhooks/typeform] route (lines 27 to 121): [body] is the
    raw body when the request has one; [secret] is
    [config.typeform.webhookSecret]. *)
Definition route (config : AmoConfig) (fieldMap : list (string * FieldMapping))
    (secret : option string) (signatureHeader : option string)
    (body : option string) (w : World) : RouteReply * World :=
  match body with
  | None => (BodyError, w)
  | Some raw =>
      if Js.truthy secret &&
         negb (typeformIsSignatureValid (Js.nullish secret "") raw signatureHeader)
      then (InvalidSignature, w)
      else
        match parse raw with
        | None => (BodyError, w)
        | Some payload =>
            let '(r, w') := handle config fieldMap payload w in (Handled r, w')
        end
  end.

End Route.

Module Signing.
(** A stand-in digest and parser to run the route on. *)
Definition digest (secret rawBody : string) : string := (secret ++ "/" ++ rawBody)%string.
Definition parse (raw : string) : option Payload :=
  if String.eqb raw "event" then Some Sample.event else None.
Definition env : gmap string string := <[TYPEFORM_WEBHOOK_SECRET := "s3cret"]> ∅.
End Signing.

(** ** The earlier field mapper (the list-based [buildLeadCustomFields]) *)

Module Legacy.

(** [{ field_id: fieldId, values: [{ value: v.trim() }] }] *)
Definition entry (fieldId : Z) (v : string) : LeadCustomFieldValue :=
  {| lcf_field_id := fieldId;
     lcf_values := [ {| cv_value := Some (Js.trim v); cv_enum_id := None |} ] |}.

(** First loop: hidden parameters, pushed in the order met. *)
Definition hidden_step (out : list LeadCustomFieldValue) (kv : string * string)
    : list LeadCustomFieldValue :=
  match table_get HIDDEN_TO_LEAD_FIELD_ID (fst kv) with
  | None => out
  | Some fieldId =>
      if fieldId =? 0 then out
      else if Js.blank (snd kv) then out
      else (out ++ [entry fieldId (snd kv)])%list
  end.

(** The chain of [if]/[else if] that picks the value of an answer; a date
    is taken as it is. *)
Definition answerValue (a : Answer) : option string :=
  if Js.truthy (ans_text a) then ans_text a
  else if Js.truthy (ans_email a) then ans_email a
  else if Js.truthy (ans_phone_number a) then ans_phone_number a
  else match ans_boolean a with
  | Some b => Some (if b then "true" else "false")
  | None =>
  match ans_number a with
  | Some n => Some n
  | None =>
  if Js.truthy (ans_date a) then ans_date a
  else if Js.truthy (ans_choice_label a) then ans_choice_label a
  else match ans_choices_labels a with
  | Some (l :: ls) => Some (Js.join ", " (l :: ls))
  | _ => None
  end end end.

(** Second loop: the answers named in [TYPEFORM_FIELD_MAP]. *)
Definition answer_step (fieldMap : list (string * FieldMapping))
    (out : list LeadCustomFieldValue) (a : Answer) : list LeadCustomFieldValue :=
  match table_get fieldMap (answer_key a) with
  | None => out
  | Some mapping =>
      if negb (String.eqb (fm_entity mapping) "lead") then out
      else
        match answerValue a with
        | Some (String c t) =>
            if Js.blank (String c t) then out
            else (out ++ [entry (fm_fieldId mapping) (String c t)])%list
        | _ => out
        end
  end.

Definition buildLeadCustomFields (fieldMap : list (string * FieldMapping))
    (fr : FormResponse) : list LeadCustomFieldValue :=
  fold_left (answer_step fieldMap) (answers fr)
    (fold_left hidden_step (hidden fr) []).

End Legacy.

(** The key of an answer is one of the refs built into the mapper. *)
Definition builtin_ref (key : string) : bool :=
  includes_key DEFAULT_REFS.fullName key
  || includes_key DEFAULT_REFS.childName key
  || includes_key DEFAULT_REFS.childDob key
  || includes_key DEFAULT_REFS.desiredProgram key
  || includes_key DEFAULT_REFS.currentEducation key.

(** One entry per field: each entry takes the place of an earlier one for
    the same field, or comes last when there is none. *)
Definition set_entry (m : OutMap) (e : LeadCustomFieldValue) : OutMap :=
  map_set m (lcf_field_id e) e.

Definition last_per_field (l : list LeadCustomFieldValue) : list LeadCustomFieldValue :=
  map snd (fold_left set_entry l []).

(** The entries a list of [put] calls brings, skipped calls left out. *)
Definition kept (ps : list PutParams) : list LeadCustomFieldValue :=
  flat_map (fun p => if put_skips p then [] else [put_entry p]) ps.

(** * Properties *)

Open Scope list_scope.

(** ** String primitives *)

Lemma trimStart_fixed s :
  match s with EmptyString => True | String c _ => Js.is_space c = false end ->
  Js.trimStart s = s.
Proof. destruct s as [|c s]; simpl; [reflexivity|]. intros ->. reflexivity. Qed.

Lemma trimStart_head s :
  match Js.trimStart s with
  | EmptyString => True
  | String c _ => Js.is_space c = false
  end.
Proof.
  induction s as [|c s IH]; simpl; [exact I|].
  destruct (Js.is_space c) eqn:E; [exact IH|]. exact E.
Qed.

Lemma trimEnd_head s :
  match s with EmptyString => True | String c _ => Js.is_space c = false end ->
  match Js.trimEnd s with EmptyString => True | String c _ => Js.is_space c = false end.
Proof.
  destruct s as [|c s]; simpl; [trivial|]. intros E.
  destruct (Js.trimEnd s); [rewrite E|]; exact E.
Qed.

Lemma trimEnd_idem s : Js.trimEnd (Js.trimEnd s) = Js.trimEnd s.
Proof.
  induction s as [|c s IH]; simpl; [reflexivity|].
  destruct (Js.trimEnd s) as [|d t] eqn:E.
  - destruct (Js.is_space c) eqn:Ec; simpl; [reflexivity|]. rewrite Ec. reflexivity.
  - change (Js.trimEnd (String c (String d t))) with
      (match Js.trimEnd (String d t) with
       | EmptyString => if Js.is_space c then EmptyString else String c EmptyString
       | u => String c u
       end).
    rewrite IH. reflexivity.
Qed.

Lemma trim_idem s : Js.trim (Js.trim s) = Js.trim s.
Proof.
  unfold Js.trim.
  rewrite (trimStart_fixed (Js.trimEnd (Js.trimStart s))).
  - apply trimEnd_idem.
  - apply trimEnd_head, trimStart_head.
Qed.

Lemma trim_trimmed s : Js.trimmed (Js.trim s).
Proof. apply trim_idem. Qed.

Lemma carried_idem o : carried (carried o) = carried o.
Proof. unfold carried. destruct (Js.truthy o) eqn:E; [rewrite E|]; reflexivity. Qed.

(** ** Contact extraction *)

Lemma first_answer_cons supply a l :
  first_answer supply (a :: l) = COALESCE (supply a) (first_answer supply l).
Proof. unfold first_answer. simpl. destruct (supply a); reflexivity. Qed.

Lemma COALESCE_None_r {A} (o : option A) : COALESCE o None = o.
Proof. destruct o; reflexivity. Qed.

Lemma COALESCE_assoc {A} (a b c : option A) :
  COALESCE (COALESCE a b) c = COALESCE a (COALESCE b c).
Proof. destruct a; reflexivity. Qed.

(** The loop keeps each slot "clean" (absent, or present and not empty), and
    a clean slot is filled by the first answer that supplies a value. *)
Lemma step_email st a :
  carried (cb_email st) = cb_email st ->
  cb_email (contact_step st a) = COALESCE (cb_email st) (carried (ans_email a))
  /\ carried (cb_email (contact_step st a)) = cb_email (contact_step st a).
Proof.
  unfold contact_step, carried; simpl.
  destruct (cb_email st) as [[|c s]|]; destruct (ans_email a) as [[|d t]|]; simpl;
    intros Hc; split; try reflexivity; try discriminate Hc.
Qed.

Lemma step_phone st a :
  carried (cb_phone st) = cb_phone st ->
  cb_phone (contact_step st a) = COALESCE (cb_phone st) (carried (ans_phone_number a))
  /\ carried (cb_phone (contact_step st a)) = cb_phone (contact_step st a).
Proof.
  unfold contact_step, carried; simpl.
  destruct (cb_phone st) as [[|c s]|]; destruct (ans_phone_number a) as [[|d t]|]; simpl;
    intros Hc; split; try reflexivity; try discriminate Hc.
Qed.

Lemma answer_name_carried a : carried (answer_name a) = answer_name a.
Proof.
  unfold answer_name, carried.
  destruct (ans_text a) as [t|]; [|reflexivity].
  destruct (String.eqb (ans_type a) "text"); simpl; [|reflexivity].
  destruct (1 <? String.length (Js.trim t))%nat eqn:E; [|reflexivity].
  destruct (Js.trim t); [discriminate E|reflexivity].
Qed.

Lemma step_name st a :
  carried (cb_name st) = cb_name st ->
  cb_name (contact_step st a) = COALESCE (cb_name st) (answer_name a)
  /\ carried (cb_name (contact_step st a)) = cb_name (contact_step st a).
Proof.
  intros Hc. pose proof (answer_name_carried a) as Hn.
  unfold contact_step, answer_name in *; simpl.
  destruct (cb_name st) as [[|c s]|] eqn:En; [discriminate Hc | |].
  - destruct (ans_text a); simpl; split; reflexivity.
  - destruct (ans_text a) as [t|]; simpl; [|split; reflexivity].
    destruct (String.eqb (ans_type a) "text"); simpl in *; [|split; reflexivity].
    destruct t as [|c t]; simpl in *; [split; reflexivity|].
    destruct (1 <? String.length (Js.trim (String c t)))%nat; split;
      try reflexivity; exact Hn.
Qed.

Lemma loop_email l : forall st,
  carried (cb_email st) = cb_email st ->
  cb_email (fold_left contact_step l st)
  = COALESCE (cb_email st) (first_answer (fun a => carried (ans_email a)) l).
Proof.
  induction l as [|a l IH]; intros st Hc; simpl.
  - symmetry. apply COALESCE_None_r.
  - destruct (step_email st a Hc) as [Hs Hc'].
    rewrite (IH _ Hc'), Hs, first_answer_cons. apply COALESCE_assoc.
Qed.

Lemma loop_phone l : forall st,
  carried (cb_phone st) = cb_phone st ->
  cb_phone (fold_left contact_step l st)
  = COALESCE (cb_phone st) (first_answer (fun a => carried (ans_phone_number a)) l).
Proof.
  induction l as [|a l IH]; intros st Hc; simpl.
  - symmetry. apply COALESCE_None_r.
  - destruct (step_phone st a Hc) as [Hs Hc'].
    rewrite (IH _ Hc'), Hs, first_answer_cons. apply COALESCE_assoc.
Qed.

Lemma loop_name l : forall st,
  carried (cb_name st) = cb_name st ->
  cb_name (fold_left contact_step l st)
  = COALESCE (cb_name st) (first_answer answer_name l).
Proof.
  induction l as [|a l IH]; intros st Hc; simpl.
  - symmetry. apply COALESCE_None_r.
  - destruct (step_name st a Hc) as [Hs Hc'].
    rewrite (IH _ Hc'), Hs, first_answer_cons. apply COALESCE_assoc.
Qed.

Lemma first_answer_carried supply l :
  (forall a, carried (supply a) = supply a) ->
  carried (first_answer supply l) = first_answer supply l.
Proof.
  intros Hs. induction l as [|a l IH]; [reflexivity|].
  rewrite first_answer_cons. specialize (Hs a).
  destruct (supply a) as [v|]; simpl; [exact Hs | exact IH].
Qed.

Lemma fallback_slot (found hid : option string) :
  carried found = found ->
  (if negb (Js.truthy found) && Js.truthy hid then hid else found)
  = match found with Some v => Some v | None => carried hid end.
Proof.
  unfold carried. destruct found as [[|c s]|]; simpl; try discriminate; try reflexivity.
Qed.

Lemma extracted_email fr :
  cb_email (extractContactBits fr)
  = contact_slot (fun a => carried (ans_email a)) "email" fr.
Proof.
  unfold extractContactBits, contact_slot. simpl.
  rewrite loop_email by reflexivity. simpl. apply fallback_slot.
  apply first_answer_carried. intros a. apply carried_idem.
Qed.

Lemma extracted_phone fr :
  cb_phone (extractContactBits fr)
  = contact_slot (fun a => carried (ans_phone_number a)) "phone" fr.
Proof.
  unfold extractContactBits, contact_slot. simpl.
  rewrite loop_phone by reflexivity. simpl. apply fallback_slot.
  apply first_answer_carried. intros a. apply carried_idem.
Qed.

Lemma extracted_name fr :
  cb_name (extractContactBits fr) = contact_slot answer_name "name" fr.
Proof.
  unfold extractContactBits, contact_slot. simpl.
  rewrite loop_name by reflexivity. simpl. apply fallback_slot.
  apply first_answer_carried, answer_name_carried.
Qed.

(** C10. [extractContactBits] gives answers strict priority over hidden
    parameters: the email (phone) is the one of the first answer carrying an
    email (phone number), the name is the trimmed text of the first
    text-type answer whose trimmed text is longer than one character; the
    hidden parameter of a slot is used only when no answer supplies the
    slot, and the slot is absent when neither source has a value. *)
Theorem extractContactBits_priority (fr : FormResponse) :
  extractContactBits fr =
  {| cb_name := contact_slot answer_name "name" fr;
     cb_email := contact_slot (fun a => carried (ans_email a)) "email" fr;
     cb_phone := contact_slot (fun a => carried (ans_phone_number a)) "phone" fr |}.
Proof.
  rewrite <- extracted_name, <- extracted_email, <- extracted_phone.
  unfold extractContactBits. reflexivity.
Qed.

(** ** The submission ledger *)

Lemma getSubmissionByToken_token t tok r :
  getSubmissionByToken t tok = Some r -> row_response_token r = tok.
Proof.
  unfold getSubmissionByToken. intros H.
  apply find_some in H as [_ H]. unfold has_token in H.
  apply String.eqb_eq in H. exact H.
Qed.

Lemma find_filter_other tok tok' (t : Ledger) :
  tok' <> tok ->
  find (has_token tok') (List.filter (fun r => negb (has_token tok r)) t)
  = find (has_token tok') t.
Proof.
  intros Hne. induction t as [|r t IH]; [reflexivity|].
  simpl. destruct (has_token tok r) eqn:E1; simpl.
  - destruct (has_token tok' r) eqn:E2; [|exact IH].
    unfold has_token in *. apply String.eqb_eq in E1, E2. congruence.
  - rewrite IH. reflexivity.
Qed.

Lemma upsert_same p t :
  getSubmissionByToken (upsertSubmission p t) (up_responseToken p)
  = Some match getSubmissionByToken t (up_responseToken p) with
         | Some old => do_update old (EXCLUDED p)
         | None => EXCLUDED p
         end.
Proof.
  unfold upsertSubmission.
  destruct (getSubmissionByToken t (up_responseToken p)) as [old|] eqn:E.
  - apply getSubmissionByToken_token in E.
    unfold getSubmissionByToken. cbn [find]. unfold has_token at 1. simpl.
    rewrite E, String.eqb_refl. reflexivity.
  - unfold getSubmissionByToken. cbn [find]. unfold has_token at 1. simpl.
    rewrite String.eqb_refl. reflexivity.
Qed.

Lemma upsert_other p t tok :
  tok <> up_responseToken p ->
  getSubmissionByToken (upsertSubmission p t) tok = getSubmissionByToken t tok.
Proof.
  intros Hne. unfold upsertSubmission.
  destruct (getSubmissionByToken t (up_responseToken p)) as [old|] eqn:E.
  - apply getSubmissionByToken_token in E.
    unfold getSubmissionByToken. cbn [find]. unfold has_token at 1. simpl.
    rewrite E. destruct (String.eqb (up_responseToken p) tok) eqn:E2.
    + apply String.eqb_eq in E2. congruence.
    + apply find_filter_other. exact Hne.
  - unfold getSubmissionByToken. cbn [find]. unfold has_token at 1. simpl.
    destruct (String.eqb (up_responseToken p) tok) eqn:E2; [|reflexivity].
    apply String.eqb_eq in E2. congruence.
Qed.

(** One upsert keeps a row that has a lead id, with a lead id. *)
Lemma upsert_keeps_lead p t tok r :
  getSubmissionByToken t tok = Some r -> is_Some (row_amo_lead_id r) ->
  exists r', getSubmissionByToken (upsertSubmission p t) tok = Some r'
             /\ is_Some (row_amo_lead_id r').
Proof.
  intros Hr Hl. destruct (decide (tok = up_responseToken p)) as [->|Hne].
  - rewrite upsert_same, Hr. eexists; split; [reflexivity|]. simpl.
    destruct (up_amoLeadId p); [eexists; reflexivity | exact Hl].
  - rewrite upsert_other by exact Hne. eauto.
Qed.

Lemma upserts_keep_lead ps : forall t tok r,
  getSubmissionByToken t tok = Some r -> is_Some (row_amo_lead_id r) ->
  exists r', getSubmissionByToken (fold_left (fun t' q => upsertSubmission q t') ps t) tok
             = Some r'
             /\ is_Some (row_amo_lead_id r').
Proof.
  induction ps as [|q ps IH]; intros t tok r Hr Hl; simpl; [eauto|].
  destruct (upsert_keeps_lead q t tok r Hr Hl) as (r1 & H1 & Hl1). eauto.
Qed.

(** The table keeps one row per response token. *)
Lemma upsert_unique p t : ledger_unique t -> ledger_unique (upsertSubmission p t).
Proof.
  unfold ledger_unique, upsertSubmission. intros Hu.
  set (keep := fun r => negb (has_token (up_responseToken p) r)).
  assert (Hsub : forall x, In x (map row_response_token (List.filter keep t)) ->
                           In x (map row_response_token t)).
  { intros x Hin. apply in_map_iff in Hin as (y & <- & Hy).
    apply filter_In in Hy as [Hy _]. apply in_map. exact Hy. }
  assert (Hf : NoDup (map row_response_token (List.filter keep t))).
  { clear -Hu. induction t as [|r t IH]; simpl; [constructor|].
    apply NoDup_cons in Hu as [Hn Hu'].
    destruct (keep r); simpl; [|auto].
    apply NoDup_cons. split; [|auto]. intros Hin. apply Hn.
    apply list_elem_of_In in Hin. apply in_map_iff in Hin as (y & Hy & Hin).
    apply filter_In in Hin as [Hin _].
    apply list_elem_of_In, in_map_iff. eauto. }
  destruct (getSubmissionByToken t (up_responseToken p)) as [old|] eqn:E; simpl.
  - apply getSubmissionByToken_token in E. rewrite E.
    apply NoDup_cons. split; [|exact Hf]. intros Hin.
    apply list_elem_of_In, in_map_iff in Hin as (y & Hy & Hin).
    apply filter_In in Hin as [_ Hk]. unfold keep, has_token in Hk.
    rewrite Hy, String.eqb_refl in Hk. discriminate Hk.
  - apply NoDup_cons. split; [|exact Hu]. intros Hin.
    apply list_elem_of_In, in_map_iff in Hin as (y & Hy & Hin).
    unfold getSubmissionByToken in E.
    pose proof (find_none _ _ E y Hin) as Hno. unfold has_token in Hno.
    rewrite Hy, String.eqb_refl in Hno. discriminate.
Qed.

(** C2. Upserting over an existing record: [form_id] and [last_payload] are
    always overwritten; each optional column takes the new value when one
    is given ([submitted_at]: given and not empty, as the statement's
    parameter list converts it) and keeps the stored value otherwise; a
    lead id that is set stays set through any sequence of further
    upserts, for whatever tokens. *)
Theorem upsert_merge_policy (t : Ledger) (p : UpsertParams) (old : SubmissionRow) :
  getSubmissionByToken t (up_responseToken p) = Some old ->
  exists new,
    getSubmissionByToken (upsertSubmission p t) (up_responseToken p) = Some new
    /\ row_form_id new = up_formId p
    /\ row_last_payload new = up_lastPayload p
    /\ row_landing_id new
       = match up_landingId p with Some v => Some v | None => row_landing_id old end
    /\ row_submitted_at new
       = (if Js.truthy (up_submittedAt p) then up_submittedAt p else row_submitted_at old)
    /\ row_last_event_id new
       = match up_lastEventId p with Some v => Some v | None => row_last_event_id old end
    /\ row_last_event_type new
       = match up_lastEventType p with Some v => Some v | None => row_last_event_type old end
    /\ row_amo_lead_id new
       = match up_amoLeadId p with Some v => Some v | None => row_amo_lead_id old end
    /\ row_amo_contact_id new
       = match up_amoContactId p with Some v => Some v | None => row_amo_contact_id old end
    /\ (is_Some (row_amo_lead_id old) ->
        forall qs, exists r,
          getSubmissionByToken
            (fold_left (fun t' q => upsertSubmission q t') (p :: qs) t)
            (up_responseToken p) = Some r
          /\ is_Some (row_amo_lead_id r)).
Proof.
  intros Hold. rewrite upsert_same, Hold. eexists. split; [reflexivity|].
  simpl. repeat split.
  - destruct (up_landingId p); reflexivity.
  - destruct (Js.truthy (up_submittedAt p)) eqn:E; [|reflexivity].
    destruct (up_submittedAt p); [reflexivity | discriminate E].
  - destruct (up_lastEventId p); reflexivity.
  - destruct (up_lastEventType p); reflexivity.
  - destruct (up_amoLeadId p); reflexivity.
  - destruct (up_amoContactId p); reflexivity.
  - intros Hl qs. exact (upserts_keep_lead (p :: qs) t _ old Hold Hl).
Qed.

(** ** The CRM client: framing and the request log *)

Lemma amoFetch_body config retryOn401 input method body w :
  amoFetch config retryOn401 input method body w =
  match getAccessToken config w with
  | (Throw e, w1) => (Throw e, w1)
  | (Return token, w1) =>
      match fetch (Sent retryOn401 (request_of config method input body token)) w1 with
      | (Throw e, w2) => (Throw e, w2)
      | (Return res, w2) =>
          if (status res =? 401) && retryOn401 then
            match maybeRefresh config w2 with
            | (Throw e, w3) => (Throw e, w3)
            | (Return _, w3) => amoFetch config false input method body w3
            end
          else (Return res, w2)
      end
  end.
Proof.
  simp amoFetch. unfold request_of.
  destruct (getAccessToken config w) as [[token|e] w1]; simpl; [|reflexivity].
  destruct (fetch _ w1) as [[res|e] w2]; simpl; [|reflexivity].
  destruct (status res =? 401); destruct retryOn401; simpl; try reflexivity.
  destruct (maybeRefresh config w2) as [[u|e] w3]; simpl; reflexivity.
Qed.

(** [amoFetch] read back as the sequence of awaits it is written as. *)
Lemma amoFetch_monadic config retryOn401 input method body w :
  amoFetch config retryOn401 input method body w =
  (await token <- getAccessToken config;
   await res <- fetch (Sent retryOn401 (request_of config method input body token));
   if (status res =? 401) && retryOn401
   then await _ <- maybeRefresh config; amoFetch config false input method body
   else ret res) w.
Proof.
  rewrite amoFetch_body. unfold bind, ret.
  destruct (getAccessToken config w) as [[token|e] w1]; [|reflexivity].
  destruct (fetch _ w1) as [[res|e] w2]; [|reflexivity].
  destruct ((status res =? 401) && retryOn401); [|reflexivity].
  destruct (maybeRefresh config w2) as [[u|e] w3]; reflexivity.
Qed.

Lemma getAccessToken_pure config w r w' :
  getAccessToken config w = (r, w') -> w' = w.
Proof.
  unfold getAccessToken, bind, kvGet, ret, throw.
  destruct (kv w !! KV_ACCESS) as [[|c t]|];
    destruct (accessToken config) as [[|c' t']|]; congruence.
Qed.

Lemma new_events_app w w' evs : sent w' = sent w ++ evs -> new_events w w' = evs.
Proof. unfold new_events. intros ->. apply drop_app_length. Qed.

Lemma calls_app evs1 evs2 : calls (evs1 ++ evs2) = calls evs1 ++ calls evs2.
Proof. apply omap_app. Qed.

Section Respects.
Context (P : Call -> Prop).

Lemma respects_ret {A} (a : A) : respects P (ret a).
Proof.
  intros w r w' H. inversion H; subst. split; [reflexivity|].
  exists []. rewrite app_nil_r. split; [reflexivity | constructor].
Qed.

Lemma respects_throw {A} e : respects P (@throw A e).
Proof.
  intros w r w' H. inversion H; subst. split; [reflexivity|].
  exists []. rewrite app_nil_r. split; [reflexivity | constructor].
Qed.

Lemma respects_bind {A B} (c : M A) (k : A -> M B) :
  respects P c -> (forall a, respects P (k a)) -> respects P (bind c k).
Proof.
  intros Hc Hk w r w' H. unfold bind in H.
  destruct (c w) as [[a|e] w1] eqn:E.
  - destruct (Hc _ _ _ E) as (Hs1 & evs1 & Hl1 & Hf1).
    destruct (Hk a _ _ _ H) as (Hs2 & evs2 & Hl2 & Hf2).
    split; [congruence|]. exists (evs1 ++ evs2).
    rewrite Hl2, Hl1, app_assoc. split; [reflexivity|].
    apply Forall_app. split; assumption.
  - inversion H; subst. exact (Hc _ _ _ E).
Qed.

Lemma respects_kvGet key : respects P (kvGet key).
Proof.
  intros w r w' H. inversion H; subst. split; [reflexivity|].
  exists []. rewrite app_nil_r. split; [reflexivity | constructor].
Qed.

Lemma respects_kvSet key value : respects P (kvSet key value).
Proof.
  intros w r w' H. inversion H; subst. split; [reflexivity|].
  exists []. simpl. rewrite app_nil_r. split; [reflexivity | constructor].
Qed.

Lemma respects_fetch ev : event_ok P ev -> respects P (fetch ev).
Proof.
  intros Hev w r w' H. unfold fetch in H.
  destruct (remote w); inversion H; subst; simpl; (split; [reflexivity|]);
    exists [ev]; (split; [reflexivity|]); constructor; auto.
Qed.

Lemma respects_getAccessToken config : respects P (getAccessToken config).
Proof.
  intros w r w' H. apply getAccessToken_pure in H as ->. split; [reflexivity|].
  exists []. rewrite app_nil_r. split; [reflexivity | constructor].
Qed.

Lemma respects_maybeRefresh config : respects P (maybeRefresh config).
Proof.
  unfold maybeRefresh.
  destruct (negb _); [apply respects_ret|].
  apply respects_bind; [apply respects_kvGet|]. intros fromDb.
  destruct (COALESCE fromDb (refreshToken config)) as [[|c t]|];
    try apply respects_ret.
  apply respects_bind; [apply respects_fetch; reflexivity|]. intros res.
  destruct (negb (ok res)); [apply respects_throw|].
  destruct (json res); [|apply respects_throw].
  apply respects_bind; [apply respects_kvSet|]. intros _. apply respects_kvSet.
Qed.

Lemma respects_ext {A} (c c' : M A) :
  (forall w, c w = c' w) -> respects P c' -> respects P c.
Proof. intros He Hc w r w' H. rewrite He in H. exact (Hc _ _ _ H). Qed.

Lemma respects_amoFetch config retryOn401 input method body :
  P (method, input, body) ->
  respects P (amoFetch config retryOn401 input method body).
Proof.
  intros HP.
  assert (Hfalse : respects P (amoFetch config false input method body)).
  { eapply respects_ext; [intros w; apply amoFetch_monadic|].
    apply respects_bind; [apply respects_getAccessToken|]. intros token.
    apply respects_bind; [apply respects_fetch; exact HP|]. intros res.
    rewrite andb_false_r. apply respects_ret. }
  destruct retryOn401; [|exact Hfalse].
  eapply respects_ext; [intros w; apply amoFetch_monadic|].
  apply respects_bind; [apply respects_getAccessToken|]. intros token.
  apply respects_bind; [apply respects_fetch; exact HP|]. intros res.
  destruct ((status res =? 401) && true); [|apply respects_ret].
  apply respects_bind; [apply respects_maybeRefresh | intros _; exact Hfalse].
Qed.

Lemma respects_check_ok op res : respects P (check_ok op res).
Proof. unfold check_ok. destruct (negb (ok res)); [apply respects_throw | apply respects_ret]. Qed.

Lemma respects_created_id op read res : respects P (created_id op read res).
Proof.
  unfold created_id. destruct (json res) as [j|]; [|apply respects_throw].
  destruct (read j) as [id|]; [|apply respects_throw].
  destruct (id =? 0); [apply respects_throw | apply respects_ret].
Qed.

End Respects.

Ltac respect_step :=
  first
    [ apply respects_ret
    | apply respects_throw
    | apply respects_check_ok
    | apply respects_created_id
    | apply respects_bind; [|intros ?]
    | match goal with
      | |- respects _ (if ?b then _ else _) => destruct b
      | |- respects _ (match ?x with _ => _ end) => destruct x
      end ].

Section RespectsOperations.
Context (P : Call -> Prop) (config : AmoConfig).
Hypothesis others : forall c, ~ is_lead_create c -> P c.

Lemma respects_createContact name email phone :
  respects P (createContact config name email phone).
Proof.
  unfold createContact. repeat respect_step.
  apply respects_amoFetch, others. simpl. tauto.
Qed.

Lemma respects_updateContact contactId name email phone :
  respects P (updateContact config contactId name email phone).
Proof.
  unfold updateContact. repeat respect_step.
  apply respects_amoFetch, others. simpl. tauto.
Qed.

Lemma respects_linkLeadToContact leadId contactId :
  respects P (linkLeadToContact config leadId contactId).
Proof.
  unfold linkLeadToContact. repeat respect_step.
  apply respects_amoFetch, others. simpl. tauto.
Qed.

Lemma respects_addLeadNote leadId txt :
  respects P (addLeadNote config leadId txt).
Proof.
  unfold addLeadNote. repeat respect_step.
  apply respects_amoFetch, others. simpl. tauto.
Qed.

Lemma respects_updateLeadCustomFields leadId fields :
  respects P (updateLeadCustomFields config leadId fields).
Proof.
  unfold updateLeadCustomFields. destruct fields; repeat respect_step.
  apply respects_amoFetch, others. simpl. tauto.
Qed.

Lemma respects_createLead name :
  P (POST, EpLeads,
     BodyLeadCreate name (pipelineId config)
       (if truthyZ (initialStatusId config) then initialStatusId config else None)) ->
  respects P (createLead config name).
Proof.
  intros Hl. unfold createLead. repeat respect_step.
  apply respects_amoFetch, Hl.
Qed.

Lemma respects_createOrUpdateByTypeform existingLeadId existingContactId
    typeformSummary leadCustomFields contact :
  (existingLeadId = None ->
   P (POST, EpLeads,
      BodyLeadCreate (leadName contact) (pipelineId config)
        (if truthyZ (initialStatusId config) then initialStatusId config else None))) ->
  respects P (createOrUpdateByTypeform config existingLeadId existingContactId
                typeformSummary leadCustomFields contact).
Proof.
  intros Hl. unfold createOrUpdateByTypeform.
  apply respects_bind.
  { destruct existingLeadId; [apply respects_ret|].
    apply respects_createLead, Hl. reflexivity. }
  intros leadId.
  repeat first
    [ apply respects_createContact
    | apply respects_updateContact
    | apply respects_linkLeadToContact
    | apply respects_addLeadNote
    | apply respects_updateLeadCustomFields
    | respect_step ].
Qed.

End RespectsOperations.

(** ** The retry on 401 *)

Lemma fetch_sent ev w r w' :
  fetch ev w = (r, w') -> sent w' = sent w ++ [ev].
Proof. unfold fetch. destruct (remote w); intros H; inversion H; reflexivity. Qed.

Lemma maybeRefresh_events config w r w' :
  maybeRefresh config w = (r, w') ->
  exists rf, sent w' = sent w ++ rf /\ (rf = [] \/ exists q, rf = [SentRefresh q]).
Proof.
  unfold maybeRefresh.
  destruct (negb _).
  { intros H; inversion H; subst. exists []. rewrite app_nil_r. auto. }
  unfold bind, kvGet.
  destruct (COALESCE (kv w !! KV_REFRESH) (refreshToken config)) as [[|c t]|].
  1,3: intros H; inversion H; subst; exists []; rewrite app_nil_r; auto.
  destruct (fetch _ w) as [[res|e] w1] eqn:E; apply fetch_sent in E.
  - intros H. eexists. split; [|right; eexists; reflexivity].
    destruct (negb (ok res)); [inversion H; subst; exact E|].
    destruct (json res); inversion H; subst; simpl; exact E.
  - intros H; inversion H; subst. eexists. split; [exact E|]. right. eexists; reflexivity.
Qed.

(** Without retry, [amoFetch] is one token read and one request. *)
Lemma amoFetch_false_eq config input method body w :
  amoFetch config false input method body w =
  (await token <- getAccessToken config;
   fetch (Sent false (request_of config method input body token))) w.
Proof.
  rewrite amoFetch_monadic. unfold bind, ret.
  destruct (getAccessToken config w) as [[token|e] w1]; [|reflexivity].
  destruct (fetch _ w1) as [[res|e] w2]; [|reflexivity].
  rewrite andb_false_r. reflexivity.
Qed.

(** With retry, the recursion unrolls to depth one. *)
Lemma amoFetch_true_eq config input method body w :
  amoFetch config true input method body w =
  (await token <- getAccessToken config;
   await res <- fetch (Sent true (request_of config method input body token));
   if status res =? 401
   then await _ <- maybeRefresh config;
        await token2 <- getAccessToken config;
        fetch (Sent false (request_of config method input body token2))
   else ret res) w.
Proof.
  rewrite amoFetch_monadic. unfold bind, ret.
  destruct (getAccessToken config w) as [[token|e] w1]; [|reflexivity].
  destruct (fetch _ w1) as [[res|e] w2]; [|reflexivity].
  rewrite andb_true_r. destruct (status res =? 401); [|reflexivity].
  destruct (maybeRefresh config w2) as [[u|e] w3]; [|reflexivity].
  apply amoFetch_false_eq.
Qed.

Lemma count_app f evs1 evs2 : count f (evs1 ++ evs2) = (count f evs1 + count f evs2)%nat.
Proof. unfold count. rewrite List.filter_app, length_app. reflexivity. Qed.

Lemma amoFetch_true_events config input method body w r w' :
  amoFetch config true input method body w = (r, w') ->
  exists evs, sent w' = sent w ++ evs
    /\ call_events config method input body evs
    /\ (evs = [] -> r = Throw NoAccessToken)
    /\ (forall res, r = Return res -> evs <> []).
Proof.
  rewrite amoFetch_true_eq. unfold bind, ret.
  destruct (getAccessToken config w) as [[token|e] w0] eqn:Et.
  2:{ intros H; inversion H; subst. pose proof (getAccessToken_pure _ _ _ _ Et) as ->.
      exists []. rewrite app_nil_r. repeat split; try constructor; try discriminate.
      intros _. unfold getAccessToken, bind, kvGet, ret, throw in Et.
      destruct (kv w !! KV_ACCESS) as [[|? ?]|];
        destruct (accessToken config) as [[|? ?]|]; congruence. }
  pose proof (getAccessToken_pure _ _ _ _ Et) as ->.
  destruct (fetch _ w) as [[res|e] w1] eqn:E1; apply fetch_sent in E1.
  2:{ intros H; inversion H; subst. eexists. split; [exact E1|].
      split; [apply (ce_first _ _ _ _ token [] []); auto|]. split; discriminate. }
  destruct (status res =? 401).
  2:{ intros H; inversion H; subst. eexists. split; [exact E1|].
      split; [apply (ce_first _ _ _ _ token [] []); auto|]. split; discriminate. }
  destruct (maybeRefresh config w1) as [[u|e] w2] eqn:E2;
    apply maybeRefresh_events in E2 as (rf & Hrf & Hshape).
  2:{ intros H; inversion H; subst.
      exists (Sent true (request_of config method input body token) :: rf ++ []).
      rewrite app_nil_r. split; [rewrite Hrf, E1, <- app_assoc; reflexivity|].
      split; [rewrite <- (app_nil_r rf) at 1; apply ce_first; auto|].
      split; discriminate. }
  destruct (getAccessToken config w2) as [[token2|e] w3] eqn:Et2;
    pose proof (getAccessToken_pure _ _ _ _ Et2) as ->.
  2:{ intros H; inversion H; subst.
      exists (Sent true (request_of config method input body token) :: rf ++ []).
      rewrite app_nil_r. split; [rewrite Hrf, E1, <- app_assoc; reflexivity|].
      split; [rewrite <- (app_nil_r rf) at 1; apply ce_first; auto|].
      split; discriminate. }
  intros H. apply fetch_sent in H.
  exists (Sent true (request_of config method input body token)
          :: rf ++ [Sent false (request_of config method input body token2)]).
  split; [rewrite H, Hrf, E1, <- !app_assoc; reflexivity|].
  split; [apply ce_first; eauto|]. split; discriminate.
Qed.

Lemma call_events_calls config method input body evs :
  call_events config method input body evs ->
  evs <> [] -> calls evs = [(method, input, body)].
Proof.
  intros [|token rf rp Hrf Hrp] Hne; [congruence|].
  unfold calls. simpl. f_equal. rewrite omap_app.
  destruct Hrf as [->|[q ->]]; destruct Hrp as [->|[t2 ->]]; reflexivity.
Qed.

Lemma call_events_counts config method input body evs :
  call_events config method input body evs ->
  (count is_first evs <= 1 /\ count is_refresh evs <= 1 /\ count is_replay evs <= 1)%nat.
Proof.
  intros [|token rf rp Hrf Hrp]; [unfold count; simpl; lia|].
  destruct Hrf as [->|[q ->]]; destruct Hrp as [->|[t2 ->]];
    unfold count; simpl; lia.
Qed.

(** A call that returns a response made exactly one remote CRM call. *)
Lemma amoFetch_returns config input method body w res w' :
  amoFetch config true input method body w = (Return res, w') ->
  exists evs, sent w' = sent w ++ evs /\ calls evs = [(method, input, body)].
Proof.
  intros H. apply amoFetch_true_events in H as (evs & Hs & Hce & _ & Hne).
  exists evs. split; [exact Hs|].
  apply (call_events_calls _ _ _ _ _ Hce). eapply Hne. reflexivity.
Qed.

(** The last request of a call that returns a response is the request
    itself, first attempt or replay. *)
Lemma amoFetch_returns_last config input method body w res w' :
  amoFetch config true input method body w = (Return res, w') ->
  exists evs retry token,
    sent w' = sent w ++ evs ++ [Sent retry (request_of config method input body token)].
Proof.
  rewrite amoFetch_true_eq. unfold bind, ret.
  destruct (getAccessToken config w) as [[token|e] w0] eqn:Et; [|discriminate].
  pose proof (getAccessToken_pure _ _ _ _ Et) as ->.
  destruct (fetch _ w) as [[res0|e] w1] eqn:E1; [|discriminate].
  apply fetch_sent in E1.
  destruct (status res0 =? 401).
  2:{ intros H; inversion H; subst. exists [], true, token. exact E1. }
  destruct (maybeRefresh config w1) as [[u|e] w2] eqn:E2; [|discriminate].
  apply maybeRefresh_events in E2 as (rf & Hrf & _).
  destruct (getAccessToken config w2) as [[token2|e] w3] eqn:Et2; [|discriminate].
  pose proof (getAccessToken_pure _ _ _ _ Et2) as ->.
  intros H. apply fetch_sent in H.
  exists (Sent true (request_of config method input body token) :: rf), false, token2.
  rewrite H, Hrf, E1, <- !app_assoc. reflexivity.
Qed.

(** ** Successful object operations and the calls they make *)

Lemma check_ok_returns op res w w' :
  check_ok op res w = (Return tt, w') -> w' = w /\ ok res = true.
Proof.
  unfold check_ok, throw, ret. destruct (ok res); simpl; intros H; inversion H; auto.
Qed.

Lemma created_id_returns op read res w id w' :
  created_id op read res w = (Return id, w') -> w' = w /\ id <> 0.
Proof.
  unfold created_id, throw, ret. destruct (json res) as [j|]; [|discriminate].
  destruct (read j) as [i|]; [|discriminate].
  destruct (i =? 0) eqn:E; [discriminate|]. intros H; inversion H; subst.
  apply Z.eqb_neq in E. auto.
Qed.

(** Runs one [await] of a hypothesis about a successful computation. *)
Tactic Notation "run_await" hyp(H) "as" ident(a) ident(w1) ident(E) :=
  unfold bind in H at 1;
  match type of H with
  | (let (_, _) := ?c ?w in _) = _ =>
      let e := fresh "e" in
      destruct (c w) as [[a|e] w1] eqn:E; [|discriminate H]
  | match ?c ?w with _ => _ end = _ =>
      let e := fresh "e" in
      destruct (c w) as [[a|e] w1] eqn:E; [|discriminate H]
  end.

Section OperationCalls.
Context (config : AmoConfig).

Lemma createLead_returns name w id w' :
  createLead config name w = (Return id, w') ->
  id <> 0 /\ exists evs, sent w' = sent w ++ evs
    /\ calls evs = [(POST, EpLeads,
                     BodyLeadCreate name (pipelineId config)
                       (if truthyZ (initialStatusId config)
                        then initialStatusId config else None))].
Proof.
  unfold createLead. intros H. run_await H as res w1 E. run_await H as u w2 E0.
  destruct u. apply check_ok_returns in E0 as [-> _].
  apply created_id_returns in H as [-> Hid].
  split; [exact Hid|]. eapply amoFetch_returns; eassumption.
Qed.

Lemma createContact_returns name email phone w id w' :
  createContact config name email phone w = (Return id, w') ->
  id <> 0 /\ exists evs, sent w' = sent w ++ evs
    /\ calls evs = [(POST, EpContacts,
                     BodyContactCreate
                       (Js.nullish name (Js.nullish email
                          (Js.nullish phone "Typeform contact"%string)))
                       (buildContactCustomFields phone email))].
Proof.
  unfold createContact. intros H. run_await H as res w1 E. run_await H as u w2 E0.
  destruct u. apply check_ok_returns in E0 as [-> _].
  apply created_id_returns in H as [-> Hid].
  split; [exact Hid|]. eapply amoFetch_returns; eassumption.
Qed.

Lemma updateContact_returns contactId name email phone w u w' :
  updateContact config contactId name email phone w = (Return u, w') ->
  exists evs, sent w' = sent w ++ evs
    /\ calls evs =
       if negb (Js.truthy name)
          && match buildContactCustomFields phone email with [] => true | _ => false end
       then []
       else [(PATCH, EpContacts,
              BodyContactUpdate contactId (if Js.truthy name then name else None)
                (buildContactCustomFields phone email))].
Proof.
  unfold updateContact. destruct (negb (Js.truthy name) && _).
  - intros H; inversion H; subst. exists []. rewrite app_nil_r. auto.
  - intros H. run_await H as res w1 E. destruct u. apply check_ok_returns in H as [-> _].
    eapply amoFetch_returns; eassumption.
Qed.

Lemma linkLeadToContact_returns leadId contactId w u w' :
  linkLeadToContact config leadId contactId w = (Return u, w') ->
  exists evs, sent w' = sent w ++ evs
    /\ calls evs = [(POST, EpLeadLink leadId, BodyLink contactId)].
Proof.
  unfold linkLeadToContact. intros H. run_await H as res w1 E.
  destruct u. apply check_ok_returns in H as [-> _].
  eapply amoFetch_returns; eassumption.
Qed.

Lemma addLeadNote_returns leadId txt w u w' :
  addLeadNote config leadId txt w = (Return u, w') ->
  exists evs, sent w' = sent w ++ evs
    /\ calls evs = [(POST, EpLeadNotes leadId, BodyNote txt)]
    /\ exists retry token,
         last evs = Some (Sent retry (request_of config POST (EpLeadNotes leadId)
                                        (BodyNote txt) token)).
Proof.
  unfold addLeadNote. intros H. run_await H as res w1 E.
  destruct u. apply check_ok_returns in H as [-> _].
  pose proof (amoFetch_returns_last _ _ _ _ _ _ _ E) as (evs0 & retry & token & Hl).
  apply amoFetch_returns in E as (evs & Hs & Hc).
  exists evs. split; [exact Hs|]. split; [exact Hc|].
  exists retry, token. rewrite Hs in Hl. apply app_inv_head in Hl. subst evs.
  apply last_snoc.
Qed.

Lemma updateLeadCustomFields_returns leadId fields w u w' :
  updateLeadCustomFields config leadId fields w = (Return u, w') ->
  exists evs, sent w' = sent w ++ evs
    /\ calls evs = match fields with
                   | [] => []
                   | _ => [(PATCH, EpLeads, BodyLeadFields leadId fields)]
                   end.
Proof.
  unfold updateLeadCustomFields. destruct fields as [|f fs].
  - intros H; inversion H; subst. exists []. rewrite app_nil_r. auto.
  - intros H. run_await H as res w1 E. destruct u. apply check_ok_returns in H as [-> _].
    eapply amoFetch_returns; eassumption.
Qed.

End OperationCalls.

(** ** The calls of a successful reconciliation *)

Lemma has_bits_update_sends contact :
  hasContactBits contact = true ->
  negb (Js.truthy (cb_name contact))
  && match buildContactCustomFields (cb_phone contact) (cb_email contact) with
     | [] => true
     | _ => false
     end = false.
Proof.
  unfold hasContactBits, buildContactCustomFields.
  destruct (cb_name contact) as [[|? ?]|]; destruct (cb_email contact) as [[|? ?]|];
    destruct (cb_phone contact) as [[|? ?]|]; simpl; congruence.
Qed.

Lemma ret_returns {A} (a b : A) w w' : ret a w = (Return b, w') -> b = a /\ w' = w.
Proof. intros H; inversion H; auto. Qed.

Lemma createOrUpdateByTypeform_calls config existingLeadId existingContactId
    typeformSummary leadCustomFields contact w leadId contactId w' :
  createOrUpdateByTypeform config existingLeadId existingContactId typeformSummary
    leadCustomFields contact w = (Return (leadId, contactId), w') ->
  calls (new_events w w')
  = reconciliation_calls config existingLeadId existingContactId typeformSummary
      leadCustomFields contact leadId contactId
  /\ leadId = Js.nullish existingLeadId leadId
  /\ (creates_contact existingLeadId existingContactId contact = true ->
      truthyZ contactId = true)
  /\ (creates_contact existingLeadId existingContactId contact = false ->
      contactId = if truthyZ existingLeadId then existingContactId else None)
  /\ (exists retry token,
        last (new_events w w')
        = Some (Sent retry (request_of config POST (EpLeadNotes leadId)
                              (BodyNote typeformSummary) token))).
Proof.
  unfold createOrUpdateByTypeform. intros H.
  (* the lead *)
  run_await H as lead wA EA.
  assert (HA : exists evs, sent wA = sent w ++ evs
             /\ calls evs = match existingLeadId with
                            | None => [lead_create_call config (leadName contact)]
                            | Some _ => []
                            end
             /\ lead = Js.nullish existingLeadId lead).
  { destruct existingLeadId as [l|].
    - apply ret_returns in EA as [-> ->]. exists []. rewrite app_nil_r. auto.
    - apply createLead_returns in EA as (_ & evs & Hs & Hc). exists evs. auto. }
  destruct HA as (evsA & HsA & HcA & HlA). clear EA.
  (* the contact *)
  run_await H as cid wB EB.
  assert (HB : exists evs, sent wB = sent wA ++ evs
             /\ calls evs = contact_calls existingLeadId existingContactId contact cid
             /\ (creates_contact existingLeadId existingContactId contact = true ->
                 truthyZ cid = true)
             /\ (creates_contact existingLeadId existingContactId contact = false ->
                 cid = if truthyZ existingLeadId then existingContactId else None)).
  { unfold contact_calls, creates_contact.
    destruct (truthyZ existingLeadId) eqn:Enew; simpl in EB |- *.
    - (* an existing lead *)
      run_await EB as created w1 E1. run_await EB as u w2 E2.
      apply ret_returns in EB as [-> ->]. destruct u.
      destruct (truthyZ existingContactId) eqn:Eec; simpl in E1 |- *.
      + apply ret_returns in E1 as [-> ->]. rewrite Eec in *.
        destruct existingContactId as [c|]; [|discriminate Eec].
        destruct (hasContactBits contact) eqn:Ehas; simpl in *.
        * apply updateContact_returns in E2 as (evs & Hs & Hc).
          rewrite has_bits_update_sends in Hc by exact Ehas.
          exists evs. repeat split; auto; discriminate.
        * apply ret_returns in E2 as [_ ->]. exists []. rewrite app_nil_r.
          repeat split; auto; discriminate.
      + destruct (hasContactBits contact) eqn:Ehas; simpl in *.
        * run_await E1 as c w3 E3. apply ret_returns in E1 as [-> ->].
          apply createContact_returns in E3 as (Hnz & evs1 & Hs1 & Hc1).
          assert (Ht : (c =? 0) = false) by (apply Z.eqb_neq; exact Hnz).
          simpl in E2. rewrite Ht in E2. simpl in E2.
          apply updateContact_returns in E2 as (evs2 & Hs2 & Hc2).
          rewrite has_bits_update_sends in Hc2 by exact Ehas.
          exists (evs1 ++ evs2). rewrite Hs2, Hs1, app_assoc, calls_app, Hc1, Hc2.
          simpl. rewrite Ht. repeat split; auto; discriminate.
        * apply ret_returns in E1 as [-> ->].
          assert (E2' : w2 = wA).
          { destruct existingContactId as [c|]; [rewrite Eec in E2|];
              apply ret_returns in E2 as [_ ->]; reflexivity. }
          subst w2. exists []. rewrite app_nil_r.
          destruct existingContactId as [c|]; [rewrite Eec|];
            repeat split; auto; discriminate.
    - (* a new lead *)
      destruct (hasContactBits contact) eqn:Ehas; simpl in *.
      + run_await EB as c w1 E1. apply ret_returns in EB as [-> ->].
        apply createContact_returns in E1 as (Hnz & evs1 & Hs1 & Hc1).
        assert (Ht : (c =? 0) = false) by (apply Z.eqb_neq; exact Hnz).
        exists evs1. simpl. rewrite Ht. repeat split; auto; discriminate.
      + apply ret_returns in EB as [-> ->]. exists []. rewrite app_nil_r.
        repeat split; auto; discriminate. }
  destruct HB as (evsB & HsB & HcB & HtB & HfB). clear EB.
  (* link, custom fields, note *)
  run_await H as u1 wC EC.
  assert (HC : exists evs, sent wC = sent wB ++ evs
             /\ calls evs = match cid with
                            | Some c => if truthyZ cid then [link_call lead c] else []
                            | None => []
                            end).
  { destruct cid as [c|]; [destruct (truthyZ (Some c))|].
    - destruct u1. eapply linkLeadToContact_returns; eassumption.
    - apply ret_returns in EC as [_ ->]. exists []. rewrite app_nil_r. auto.
    - apply ret_returns in EC as [_ ->]. exists []. rewrite app_nil_r. auto. }
  destruct HC as (evsC & HsC & HcC). clear EC.
  run_await H as u2 wD ED.
  assert (HD : exists evs, sent wD = sent wC ++ evs
             /\ calls evs = match leadCustomFields with
                            | [] => []
                            | _ => [lead_fields_call lead leadCustomFields]
                            end).
  { destruct leadCustomFields as [|f fs].
    - apply ret_returns in ED as [_ ->]. exists []. rewrite app_nil_r. auto.
    - destruct u2. eapply updateLeadCustomFields_returns in ED. exact ED. }
  destruct HD as (evsD & HsD & HcD). clear ED.
  run_await H as u3 wE EE. destruct u3.
  apply addLeadNote_returns in EE as (evsE & HsE & HcE & retry & token & HlE).
  apply ret_returns in H as [H ->]. inversion H; subst leadId contactId.
  assert (Hnew : new_events w wE = evsA ++ evsB ++ evsC ++ evsD ++ evsE).
  { apply new_events_app.
    rewrite HsE, HsD, HsC, HsB, HsA, <- !app_assoc. reflexivity. }
  rewrite Hnew. split; [|split; [|split; [|split]]]; auto.
  - rewrite !calls_app, HcA, HcB, HcC, HcD, HcE. reflexivity.
  - exists retry, token. rewrite !app_assoc.
    apply last_Some in HlE as (l' & ->). rewrite !app_assoc. apply last_snoc.
Qed.

(** ** The webhook handler *)

Lemma handle_valid config fieldMap payload fr tok fid w :
  form_response payload = Some fr ->
  token fr = Some tok -> tok <> ""%string ->
  form_id fr = Some fid -> fid <> ""%string ->
  handle config fieldMap payload w =
  let existing := lookupExisting (submissions w) tok fid (landing_id fr) in
  if isDuplicate existing payload
  then ({| rp_status := 200; rp_ok := true; rp_leadId := existing ≫= row_amo_lead_id;
           rp_contactId := None; rp_error := None |}, w)
  else reconcile config fieldMap payload fr tok fid existing w.
Proof.
  intros Hfr Ht Htne Hf Hfne. unfold handle. rewrite Hfr, Ht, Hf.
  destruct tok as [|c1 t1]; [congruence|]. destruct fid as [|c2 t2]; [congruence|].
  reflexivity.
Qed.

Lemma handle_malformed config fieldMap payload w :
  malformed payload = true -> handle config fieldMap payload w = (invalid_payload, w).
Proof.
  unfold malformed, handle. destruct (form_response payload) as [fr|]; [|reflexivity].
  simpl. destruct (token fr) as [[|c1 t1]|]; try reflexivity.
  destruct (form_id fr) as [[|c2 t2]|]; try reflexivity. discriminate.
Qed.

(** The upsert parameters the handler builds at lines 87 to 98. *)
Lemma reconcile_cases config fieldMap payload fr tok fid existing w r w' :
  reconcile config fieldMap payload fr tok fid existing w = (r, w') ->
  (exists e,
      createOrUpdateByTypeform config (existing ≫= row_amo_lead_id)
        (existing ≫= row_amo_contact_id) (stringifyAnswers fr)
        (buildLeadCustomFields fieldMap fr) (extractContactBits fr) w = (Throw e, w')
      /\ rp_status r = 500 /\ rp_error r = Some (Failed e))
  \/ (exists leadId contactId w1,
      createOrUpdateByTypeform config (existing ≫= row_amo_lead_id)
        (existing ≫= row_amo_contact_id) (stringifyAnswers fr)
        (buildLeadCustomFields fieldMap fr) (extractContactBits fr) w
      = (Return (leadId, contactId), w1)
      /\ r = {| rp_status := 200; rp_ok := true; rp_leadId := Some leadId;
                rp_contactId := contactId; rp_error := None |}
      /\ w' = write_ledger
                {| up_formId := fid; up_responseToken := tok;
                   up_landingId := landing_id fr; up_submittedAt := submitted_at fr;
                   up_lastEventId := event_id payload;
                   up_lastEventType := event_type payload;
                   up_amoLeadId := Some leadId; up_amoContactId := contactId;
                   up_lastPayload := payload |} w1).
Proof.
  unfold reconcile.
  destruct (createOrUpdateByTypeform _ _ _ _ _ _ w) as [[[leadId contactId]|e] w1];
    intros H; inversion H; subst.
  - right. eauto 10.
  - left. eauto.
Qed.

Lemma createOrUpdateByTypeform_frame config el ec s f c w r w' :
  createOrUpdateByTypeform config el ec s f c w = (r, w') ->
  submissions w' = submissions w
  /\ exists evs, sent w' = sent w ++ evs.
Proof.
  intros H.
  destruct (respects_createOrUpdateByTypeform (fun _ => True) config
              (fun _ _ => I) el ec s f c (fun _ => I) _ _ _ H) as (Hs & evs & He & _).
  eauto.
Qed.

(** C6. A delivery that fails leaves the submissions table as it was: a
    malformed event (no response token or no form id) is answered 400 with
    the whole state untouched, any other failure is answered 500 with the
    table untouched; the table is written only once the CRM reconciliation
    has returned, and nothing is sent after that write. *)
Theorem failed_delivery_keeps_ledger config fieldMap payload w r w' :
  handle config fieldMap payload w = (r, w') ->
  (malformed payload = true -> r = invalid_payload /\ w' = w)
  /\ (rp_status r <> 200 -> submissions w' = submissions w)
  /\ (submissions w' <> submissions w ->
      rp_status r = 200
      /\ exists fr existing leadId contactId w1 params,
           form_response payload = Some fr
           /\ createOrUpdateByTypeform config (existing ≫= row_amo_lead_id)
                (existing ≫= row_amo_contact_id) (stringifyAnswers fr)
                (buildLeadCustomFields fieldMap fr) (extractContactBits fr) w
              = (Return (leadId, contactId), w1)
           /\ submissions w1 = submissions w
           /\ w' = write_ledger params w1).
Proof.
  intros H. split; [|].
  { intros Hm. rewrite handle_malformed in H by exact Hm. inversion H; auto. }
  assert (Hcases :
    (submissions w' = submissions w /\ (rp_status r = 200 -> w' = w))
    \/ (rp_status r = 200
        /\ exists fr existing leadId contactId w1 params,
             form_response payload = Some fr
             /\ createOrUpdateByTypeform config (existing ≫= row_amo_lead_id)
                  (existing ≫= row_amo_contact_id) (stringifyAnswers fr)
                  (buildLeadCustomFields fieldMap fr) (extractContactBits fr) w
                = (Return (leadId, contactId), w1)
             /\ submissions w1 = submissions w
             /\ w' = write_ledger params w1)).
  { unfold handle in H.
    destruct (form_response payload) as [fr|] eqn:Hfr; [|inversion H; auto].
    destruct (token fr) as [[|c1 t1]|]; try (inversion H; subst; auto; fail).
    destruct (form_id fr) as [[|c2 t2]|]; try (inversion H; subst; auto; fail).
    destruct (isDuplicate _ payload); [inversion H; subst; auto|].
    apply reconcile_cases in H as [(e & Hc & Hst & _)|(l & c & w1 & Hc & -> & ->)].
    - left. apply createOrUpdateByTypeform_frame in Hc as [Hs _].
      split; [exact Hs|]. rewrite Hst. discriminate.
    - right. split; [reflexivity|].
      pose proof (createOrUpdateByTypeform_frame _ _ _ _ _ _ _ _ _ Hc) as [Hs _].
      eauto 12. }
  split.
  - intros Hne. destruct Hcases as [[Hs _]|[Hst _]]; [exact Hs | contradiction].
  - intros Hne. destruct Hcases as [[Hs _]|Hok]; [contradiction | exact Hok].
Qed.

Lemma isDuplicate_spec existing payload :
  isDuplicate existing payload = true <->
  exists row e, existing = Some row /\ event_id payload = Some e /\ e <> ""%string
                /\ row_last_event_id row = Some e.
Proof.
  unfold isDuplicate. split.
  - destruct existing as [row|]; [|discriminate].
    destruct (event_id payload) as [[|c t]|]; try discriminate.
    destruct (row_last_event_id row) as [l|] eqn:El; [|discriminate].
    intros H. apply String.eqb_eq in H. subst l.
    exists row, (String c t). repeat split; congruence.
  - intros (row & e & -> & -> & Hne & ->). destruct e as [|c t]; [congruence|].
    apply String.eqb_refl.
Qed.

Lemma reconciliation_calls_last config el ec s f c leadId contactId :
  last (reconciliation_calls config el ec s f c leadId contactId)
  = Some (note_call leadId s).
Proof. unfold reconciliation_calls. rewrite !app_assoc. apply last_snoc. Qed.


Lemma replay_fixed config fieldMap payload r w :
  handle config fieldMap payload w = (r, w) ->
  forall n, replay config fieldMap payload n w = (repeat r n, w).
Proof.
  intros Hh n. induction n as [|n IH]; [reflexivity|].
  simpl. rewrite Hh, IH. reflexivity.
Qed.

Lemma handle_duplicate config fieldMap payload fr tok fid e row w :
  form_response payload = Some fr ->
  token fr = Some tok -> tok <> ""%string ->
  form_id fr = Some fid -> fid <> ""%string ->
  event_id payload = Some e -> e <> ""%string ->
  getSubmissionByToken (submissions w) tok = Some row ->
  row_last_event_id row = Some e ->
  handle config fieldMap payload w
  = ({| rp_status := 200; rp_ok := true; rp_leadId := row_amo_lead_id row;
        rp_contactId := None; rp_error := None |}, w).
Proof.
  intros Hfr Ht Htne Hf Hfne He Hene Hrow Hlast.
  rewrite (handle_valid _ _ _ fr tok fid) by assumption. simpl.
  unfold lookupExisting. rewrite Hrow.
  assert (Hd : isDuplicate (Some row) payload = true).
  { apply isDuplicate_spec. exists row, e. auto. }
  rewrite Hd. reflexivity.
Qed.

(** C1, as the handler has it. Take an event with a non-empty event id.
    If its token has a ledger record with that [last_event_id], the reply
    is 200 and carries the recorded lead id, no request is sent and
    nothing is written (the whole state is unchanged), so any number of
    replays give that same reply. And after any successful delivery of the
    event, any number of replays give one same reply, with the lead id of
    that delivery, and leave the state unchanged. *)
Theorem duplicate_short_circuit config fieldMap payload fr tok fid e :
  form_response payload = Some fr ->
  token fr = Some tok -> tok <> ""%string ->
  form_id fr = Some fid -> fid <> ""%string ->
  event_id payload = Some e -> e <> ""%string ->
  (forall w row,
      getSubmissionByToken (submissions w) tok = Some row ->
      row_last_event_id row = Some e ->
      exists r,
        rp_status r = 200 /\ rp_ok r = true
        /\ rp_leadId r = row_amo_lead_id row
        /\ forall n, replay config fieldMap payload n w = (repeat r n, w))
  /\ (forall w0 r0 w1,
        handle config fieldMap payload w0 = (r0, w1) -> rp_status r0 = 200 ->
        exists r,
          rp_status r = 200 /\ rp_leadId r = rp_leadId r0
          /\ forall n, replay config fieldMap payload n w1 = (repeat r n, w1)).
Proof.
  intros Hfr Ht Htne Hf Hfne He Hene. split.
  - intros w row Hrow Hlast.
    exists {| rp_status := 200; rp_ok := true; rp_leadId := row_amo_lead_id row;
              rp_contactId := None; rp_error := None |}.
    repeat split. apply replay_fixed.
    apply (handle_duplicate _ _ _ fr tok fid e row); assumption.
  - intros w0 r0 w1 H Hst.
    pose proof H as H0.
    rewrite (handle_valid _ _ _ fr tok fid) in H by assumption. simpl in H.
    destruct (isDuplicate _ payload).
    + assert (Hw : w1 = w0) by congruence. subst w1.
      exists r0. split; [exact Hst|]. split; [reflexivity|].
      apply replay_fixed. exact H0.
    + apply reconcile_cases in H as [(err & _ & Hst' & _)|(l & c & w & Hc & -> & ->)];
        [congruence|].
      match goal with |- context [write_ledger ?q w] => set (p := q) end.
      pose (row := match getSubmissionByToken (submissions w) tok with
                   | Some old => do_update old (EXCLUDED p)
                   | None => EXCLUDED p
                   end).
      assert (Hrow : getSubmissionByToken (submissions (write_ledger p w)) tok
                     = Some row) by exact (upsert_same p (submissions w)).
      assert (Hlead : row_amo_lead_id row = Some l)
        by (unfold row; destruct (getSubmissionByToken (submissions w) tok);
            reflexivity).
      assert (Hlast : row_last_event_id row = Some e)
        by (unfold row; destruct (getSubmissionByToken (submissions w) tok);
            simpl; rewrite He; reflexivity).
      exists {| rp_status := 200; rp_ok := true; rp_leadId := Some l;
                rp_contactId := None; rp_error := None |}.
      split; [reflexivity|]. split; [reflexivity|].
      apply replay_fixed. rewrite <- Hlead.
      apply (handle_duplicate _ _ _ fr tok fid e row); assumption.
Qed.

(** ** Reconciliation paths *)

(** C5. A successful reconciliation of a new lead (no prior lead id) with a
    contact field present makes exactly these remote CRM calls, in this
    order: create-lead, create-contact, link, update-lead-custom-fields
    when the field set is not empty, add-note. In every successful
    reconciliation the add-note call is the last remote CRM call, and the
    last request sent at all is the note request (its first attempt, or its
    replay after a refresh). *)
Theorem new_lead_call_order config existingLeadId existingContactId typeformSummary
    leadCustomFields contact w leadId contactId w' :
  createOrUpdateByTypeform config existingLeadId existingContactId typeformSummary
    leadCustomFields contact w = (Return (leadId, contactId), w') ->
  last (calls (new_events w w')) = Some (note_call leadId typeformSummary)
  /\ (exists retry token,
        last (new_events w w')
        = Some (Sent retry (request_of config POST (EpLeadNotes leadId)
                              (BodyNote typeformSummary) token)))
  /\ (existingLeadId = None -> hasContactBits contact = true ->
      exists c, contactId = Some c /\ c <> 0 /\
        calls (new_events w w') =
          [ lead_create_call config (leadName contact);
            contact_create_call contact;
            link_call leadId c ]
          ++ match leadCustomFields with
             | [] => []
             | _ => [lead_fields_call leadId leadCustomFields]
             end
          ++ [ note_call leadId typeformSummary ]).
Proof.
  intros H.
  apply createOrUpdateByTypeform_calls in H as (Hcalls & _ & Hcreates & _ & Hlast).
  split; [rewrite Hcalls; apply reconciliation_calls_last|].
  split; [exact Hlast|].
  intros -> Hbits. unfold creates_contact in Hcreates. simpl in Hcreates.
  specialize (Hcreates Hbits). destruct contactId as [c|]; [|discriminate].
  exists c. split; [reflexivity|].
  split; [simpl in Hcreates; intros ->; discriminate|].
  rewrite Hcalls. unfold reconciliation_calls, contact_calls, creates_contact.
  rewrite Hcreates. simpl. rewrite Hbits. reflexivity.
Qed.

(** C8. The name of a lead that gets created is ["Typeform: "] followed by
    the contact's email if there is one, else its phone if there is one,
    else ["submission"]: every lead-creation request sent carries that name,
    and a successful run sent it first. When an existing lead id is given,
    no lead-creation request is sent at all (first attempt or replay) and
    the id is reused. A slot of [extractContactBits] is never the empty
    string, so "there is one" is the same as "not empty" in the handler. *)
Theorem lead_name_rule config existingLeadId existingContactId typeformSummary
    leadCustomFields contact w r w' :
  createOrUpdateByTypeform config existingLeadId existingContactId typeformSummary
    leadCustomFields contact w = (r, w') ->
  let name :=
    ("Typeform: " ++
     match cb_email contact with
     | Some email => email
     | None => match cb_phone contact with
               | Some phone => phone
               | None => "submission"
               end
     end)%string in
  (existingLeadId = None ->
     Forall (event_ok (fun c => is_lead_create c -> c = lead_create_call config name))
       (new_events w w')
     /\ forall leadId contactId, r = Return (leadId, contactId) ->
          head (calls (new_events w w')) = Some (lead_create_call config name))
  /\ (forall l, existingLeadId = Some l ->
        Forall (event_ok (fun c => ~ is_lead_create c)) (new_events w w')
        /\ forall leadId contactId, r = Return (leadId, contactId) -> leadId = l)
  /\ (forall fr, cb_email (extractContactBits fr) <> Some ""%string
                 /\ cb_phone (extractContactBits fr) <> Some ""%string).
Proof.
  intros H name.
  assert (Hname : name = leadName contact) by reflexivity.
  split; [|split].
  - intros ->. split.
    + destruct (respects_createOrUpdateByTypeform
                  (fun c => is_lead_create c -> c = lead_create_call config name)
                  config (fun c Hc Hl => False_ind _ (Hc Hl))
                  None existingContactId typeformSummary leadCustomFields contact
                  (fun _ _ => eq_refl) _ _ _ H) as (_ & evs & Hs & Hall).
      rewrite (new_events_app _ _ _ Hs). exact Hall.
    + intros leadId contactId ->.
      apply createOrUpdateByTypeform_calls in H as (Hcalls & _).
      rewrite Hcalls. reflexivity.
  - intros l ->. split.
    + destruct (respects_createOrUpdateByTypeform
                  (fun c => ~ is_lead_create c)
                  config (fun c Hc => Hc)
                  (Some l) existingContactId typeformSummary leadCustomFields contact
                  ltac:(discriminate) _ _ _ H) as (_ & evs & Hs & Hall).
      rewrite (new_events_app _ _ _ Hs). exact Hall.
    + intros leadId contactId ->.
      apply createOrUpdateByTypeform_calls in H as (_ & Hl & _). exact Hl.
  - intros fr. rewrite extracted_email, extracted_phone. unfold contact_slot.
    split.
    + destruct (first_answer _ (answers fr)) as [v|] eqn:E.
      * pose proof (first_answer_carried (fun a => carried (ans_email a)) (answers fr)
                      (fun a => carried_idem _)) as Hc.
        rewrite E in Hc. intros Hv. inversion Hv; subst. discriminate Hc.
      * unfold carried. destruct (hidden_get (hidden fr) "email") as [[|? ?]|];
          simpl; discriminate.
    + destruct (first_answer _ (answers fr)) as [v|] eqn:E.
      * pose proof (first_answer_carried (fun a => carried (ans_phone_number a))
                      (answers fr) (fun a => carried_idem _)) as Hc.
        rewrite E in Hc. intros Hv. inversion Hv; subst. discriminate Hc.
      * unfold carried. destruct (hidden_get (hidden fr) "phone") as [[|? ?]|];
          simpl; discriminate.
Qed.

(** C4. An event that is not a duplicate, carries a contact field, and
    whose token has a ledger record with a lead id and no contact id: no
    lead-creation request is ever sent, and when the delivery succeeds
    exactly one contact was created, it was linked to the recorded lead,
    and the reply and the ledger record carry the recorded lead id and the
    new contact id. *)
Theorem existing_lead_gets_one_contact config fieldMap payload fr tok fid row lead
    w r w' :
  form_response payload = Some fr ->
  token fr = Some tok -> tok <> ""%string ->
  form_id fr = Some fid -> fid <> ""%string ->
  getSubmissionByToken (submissions w) tok = Some row ->
  row_amo_lead_id row = Some lead ->
  row_amo_contact_id row = None ->
  isDuplicate (Some row) payload = false ->
  hasContactBits (extractContactBits fr) = true ->
  handle config fieldMap payload w = (r, w') ->
  Forall (event_ok (fun c => ~ is_lead_create c)) (new_events w w')
  /\ (rp_status r = 200 ->
      exists c,
        rp_leadId r = Some lead /\ rp_contactId r = Some c /\ c <> 0
        /\ calls (new_events w w') =
             [ contact_create_call (extractContactBits fr) ]
             ++ (if lead =? 0 then []
                 else [ contact_update_call c (extractContactBits fr) ])
             ++ [ link_call lead c ]
             ++ match buildLeadCustomFields fieldMap fr with
                | [] => []
                | fields => [ lead_fields_call lead fields ]
                end
             ++ [ note_call lead (stringifyAnswers fr) ]
        /\ List.filter is_contact_create (calls (new_events w w'))
           = [ contact_create_call (extractContactBits fr) ]
        /\ exists row', getSubmissionByToken (submissions w') tok = Some row'
             /\ row_amo_lead_id row' = Some lead
             /\ row_amo_contact_id row' = Some c).
Proof.
  intros Hfr Ht Htne Hf Hfne Hrow Hlead Hnoc Hnd Hbits H.
  rewrite (handle_valid _ _ _ fr tok fid) in H by assumption. simpl in H.
  unfold lookupExisting in H. rewrite Hrow, Hnd in H.
  apply reconcile_cases in H as [(e & Hc & Hst & _)|(l & c & w1 & Hc & -> & ->)];
    simpl in Hc; rewrite Hlead, Hnoc in Hc.
  - split; [|intros; congruence].
    destruct (respects_createOrUpdateByTypeform (fun c => ~ is_lead_create c)
                config (fun c Hc => Hc) (Some lead) None (stringifyAnswers fr)
                (buildLeadCustomFields fieldMap fr) (extractContactBits fr)
                ltac:(discriminate) _ _ _ Hc)
      as (_ & evs & Hs & Hall).
    rewrite (new_events_app _ _ _ Hs). exact Hall.
  - assert (Hnew : new_events w (write_ledger
                     {| up_formId := fid; up_responseToken := tok;
                        up_landingId := landing_id fr; up_submittedAt := submitted_at fr;
                        up_lastEventId := event_id payload;
                        up_lastEventType := event_type payload;
                        up_amoLeadId := Some l; up_amoContactId := c;
                        up_lastPayload := payload |} w1) = new_events w w1)
      by reflexivity.
    rewrite Hnew. split.
    { destruct (respects_createOrUpdateByTypeform (fun c => ~ is_lead_create c)
                  config (fun c Hc => Hc) (Some lead) None (stringifyAnswers fr)
                (buildLeadCustomFields fieldMap fr) (extractContactBits fr)
                ltac:(discriminate) _ _ _ Hc)
        as (_ & evs & Hs & Hall).
      rewrite (new_events_app _ _ _ Hs). exact Hall. }
    intros _.
    apply createOrUpdateByTypeform_calls in Hc as (Hcalls & Hl & Hcreates & _).
    simpl in Hl. subst l.
    assert (Hcr : creates_contact (Some lead) None (extractContactBits fr) = true).
    { unfold creates_contact. rewrite Hbits. simpl.
      rewrite orb_true_r. reflexivity. }
    specialize (Hcreates Hcr). destruct c as [c|]; [|discriminate].
    assert (Hcz : (c =? 0) = false) by (simpl in Hcreates; destruct (c =? 0); auto).
    exists c. split; [reflexivity|]. split; [reflexivity|].
    split; [apply Z.eqb_neq; exact Hcz|].
    assert (Hlist : calls (new_events w w1) =
             [ contact_create_call (extractContactBits fr) ]
             ++ (if lead =? 0 then []
                 else [ contact_update_call c (extractContactBits fr) ])
             ++ [ link_call lead c ]
             ++ match buildLeadCustomFields fieldMap fr with
                | [] => []
                | fields => [ lead_fields_call lead fields ]
                end
             ++ [ note_call lead (stringifyAnswers fr) ]).
    { rewrite Hcalls. unfold reconciliation_calls, contact_calls. rewrite Hcr.
      simpl. rewrite Hcz, Hbits. simpl.
      destruct (lead =? 0); simpl; destruct (buildLeadCustomFields fieldMap fr);
        reflexivity. }
    split; [exact Hlist|]. split.
    + rewrite Hlist.
      destruct (lead =? 0); destruct (buildLeadCustomFields fieldMap fr); reflexivity.
    + simpl.
      match goal with |- context [upsertSubmission ?p ?t] =>
        pose proof (upsert_same p t) as Hu end.
      simpl in Hu. rewrite Hu. eexists. split; [reflexivity|].
      destruct (getSubmissionByToken (submissions w1) tok); simpl; auto.
Qed.

(** ** The retry policy of authenticated calls *)



(** ** The field mapper *)

Lemma fold_put_flat {A} (step : OutMap -> A -> OutMap) (rule : A -> list PutParams) :
  (forall out a, step out a = fold_left put (rule a) out) ->
  forall l out, fold_left step l out = fold_left put (flat_map rule l) out.
Proof.
  intros Hstep l. induction l as [|a l IH]; intros out; simpl; [reflexivity|].
  rewrite fold_left_app, <- Hstep. apply IH.
Qed.

Lemma hidden_step_rule out kv : hidden_step out kv = fold_left put (hidden_rule kv) out.
Proof.
  unfold hidden_step, hidden_rule.
  destruct (table_get HIDDEN_TO_LEAD_FIELD_ID (fst kv)) as [fieldId|]; [|reflexivity].
  destruct (fieldId =? 0); [reflexivity|]. destruct (Js.blank (snd kv)); reflexivity.
Qed.

Lemma static_step_rule out a : static_step out a = fold_left put (static_rule a) out.
Proof.
  unfold static_step, static_rule.
  destruct (includes_key DEFAULT_REFS.fullName (answer_key a));
    destruct (includes_key DEFAULT_REFS.childName (answer_key a));
    destruct (includes_key DEFAULT_REFS.childDob (answer_key a));
    destruct (includes_key DEFAULT_REFS.desiredProgram (answer_key a));
    destruct (includes_key DEFAULT_REFS.currentEducation (answer_key a));
    reflexivity.
Qed.

Lemma dynamic_step_rule fieldMap out a :
  dynamic_step fieldMap out a = fold_left put (dynamic_rule fieldMap a) out.
Proof.
  unfold dynamic_step, dynamic_rule.
  destruct (table_get fieldMap (answer_key a)) as [mapping|]; [|reflexivity].
  destruct (negb (String.eqb (fm_entity mapping) "lead")); reflexivity.
Qed.

(** The three loops are one pass of [put] over the ordered rule list. *)
Lemma buildLeadCustomFields_rules fieldMap fr :
  buildLeadCustomFields fieldMap fr
  = map snd (fold_left put
               (hidden_rules fr ++ static_rules fr ++ dynamic_rules fieldMap fr) []).
Proof.
  unfold buildLeadCustomFields, hidden_rules, static_rules, dynamic_rules.
  rewrite !fold_left_app.
  rewrite (fold_put_flat hidden_step hidden_rule hidden_step_rule).
  rewrite (fold_put_flat static_step static_rule static_step_rule).
  rewrite (fold_put_flat (dynamic_step fieldMap) (dynamic_rule fieldMap)
             (dynamic_step_rule fieldMap)).
  reflexivity.
Qed.

Lemma map_get_set m k v k' :
  map_get (map_set m k v) k' = if k =? k' then Some v else map_get m k'.
Proof.
  induction m as [|[k0 v0] m IH]; simpl.
  - reflexivity.
  - destruct (k0 =? k) eqn:E0; simpl.
    + apply Z.eqb_eq in E0. subst k0. destruct (k =? k'); reflexivity.
    + destruct (k0 =? k') eqn:E1; [|exact IH].
      apply Z.eqb_eq in E1. subst k0. rewrite Z.eqb_sym, E0. reflexivity.
Qed.

Lemma map_set_keys m k v :
  map fst (map_set m k v) = if existsb (Z.eqb k) (map fst m) then map fst m
                            else map fst m ++ [k].
Proof.
  induction m as [|[k0 v0] m IH]; simpl; [reflexivity|].
  rewrite (Z.eqb_sym k k0). destruct (k0 =? k) eqn:E0; simpl.
  - apply Z.eqb_eq in E0. subst k0. reflexivity.
  - rewrite IH. destruct (existsb (Z.eqb k) (map fst m)); reflexivity.
Qed.

Lemma map_set_NoDup m k v : NoDup (map fst m) -> NoDup (map fst (map_set m k v)).
Proof.
  intros Hn. rewrite map_set_keys.
  destruct (existsb (Z.eqb k) (map fst m)) eqn:E; [exact Hn|].
  apply NoDup_app. split; [exact Hn|]. split; [|apply NoDup_singleton].
  intros x Hx Hk. apply list_elem_of_singleton in Hk. subst x.
  apply list_elem_of_In in Hx.
  assert (Ht : existsb (Z.eqb k) (map fst m) = true).
  { apply existsb_exists. exists k. split; [exact Hx | apply Z.eqb_refl]. }
  congruence.
Qed.

Lemma map_set_Forall (Q : Z * LeadCustomFieldValue -> Prop) m k v :
  Forall Q m -> Q (k, v) -> Forall Q (map_set m k v).
Proof.
  intros Hm Hkv. induction m as [|[k0 v0] m IH]; simpl.
  - constructor; [exact Hkv | constructor].
  - apply Forall_cons in Hm as [H0 Hm]. destruct (k0 =? k).
    + apply Forall_cons. split; assumption.
    + apply Forall_cons. split; [exact H0 | apply IH, Hm].
Qed.

Lemma assigned_cons k p ps :
  assigned k (p :: ps)
  = COALESCE (assigned k ps)
      (if (pp_fieldId p =? k) && negb (put_skips p) then Some (put_entry p) else None).
Proof.
  unfold assigned. simpl.
  destruct ((pp_fieldId p =? k) && negb (put_skips p)); simpl.
  - destruct (map put_entry (List.filter _ ps)) as [|e es] eqn:E; [reflexivity|].
    rewrite last_cons. destruct (last (e :: es)) eqn:El; [reflexivity|].
    apply last_None in El. discriminate El.
  - symmetry. apply COALESCE_None_r.
Qed.

Lemma assigned_app k ps qs :
  assigned k (ps ++ qs) = COALESCE (assigned k qs) (assigned k ps).
Proof.
  induction ps as [|p ps IH]; simpl.
  - symmetry. apply COALESCE_None_r.
  - rewrite !assigned_cons, IH. apply COALESCE_assoc.
Qed.

Lemma fold_put_get k ps : forall out,
  map_get (fold_left put ps out) k = COALESCE (assigned k ps) (map_get out k).
Proof.
  induction ps as [|p ps IH]; intros out; simpl; [reflexivity|].
  rewrite IH, assigned_cons, COALESCE_assoc. f_equal.
  unfold put. destruct (put_skips p); simpl.
  - rewrite andb_false_r. reflexivity.
  - rewrite andb_true_r, map_get_set. destruct (pp_fieldId p =? k); reflexivity.
Qed.

Lemma put_entry_clean p : rule_wf p -> put_skips p = false -> entry_clean (put_entry p).
Proof.
  intros Hwf Hskip cv v [<-|[]] Hv. simpl in Hv.
  destruct (pp_value p) as [[|c t]|] eqn:Ev; try discriminate Hv.
  inversion Hv; subst v. split; [apply trim_trimmed|].
  unfold put_skips in Hskip. rewrite Ev in Hskip.
  destruct Hwf as [He|Hn]; [|unfold rule_wf in *; congruence].
  rewrite He in Hskip. rewrite andb_true_r in Hskip. unfold Js.blank in Hskip.
  destruct (Js.trim (String c t)); [discriminate Hskip | discriminate].
Qed.

Lemma fold_put_invariants ps : forall out,
  Forall rule_wf ps ->
  NoDup (map fst out) -> keyed out -> Forall (fun kv => entry_clean (snd kv)) out ->
  let out' := fold_left put ps out in
  NoDup (map fst out') /\ keyed out' /\ Forall (fun kv => entry_clean (snd kv)) out'.
Proof.
  induction ps as [|p ps IH]; intros out Hwf Hn Hk Hc; simpl; [auto|].
  apply Forall_cons in Hwf as [Hp Hwf]. apply IH; [exact Hwf | | |];
    unfold put; destruct (put_skips p) eqn:Es; try assumption.
  - apply map_set_NoDup, Hn.
  - apply map_set_Forall; [exact Hk | reflexivity].
  - apply map_set_Forall; [exact Hc | apply put_entry_clean; assumption].
Qed.

Lemma rules_wf fieldMap fr :
  Forall rule_wf (hidden_rules fr ++ static_rules fr ++ dynamic_rules fieldMap fr).
Proof.
  unfold hidden_rules, static_rules, dynamic_rules.
  rewrite !Forall_app. repeat split; apply Forall_flat_map, Forall_forall; intros x _.
  - unfold hidden_rule. destruct (table_get _ _) as [f|]; [|constructor].
    destruct (f =? 0); [constructor|]. destruct (Js.blank _); [constructor|].
    repeat constructor.
  - unfold static_rule. rewrite !Forall_app. repeat split;
      match goal with
      | |- Forall _ (if ?b then _ else _) => destruct b
      end;
      try apply Forall_nil_2;
      (apply Forall_cons; split; [|apply Forall_nil_2]);
      solve [left; reflexivity | right; reflexivity].
  - unfold dynamic_rule. destruct (table_get _ _) as [m|]; [|constructor].
    destruct (negb _); repeat constructor.
Qed.

Lemma keyed_assignment out k :
  keyed out -> assignment k (map snd out) = map_get out k.
Proof.
  unfold assignment. induction out as [|[k0 v0] out IH]; intros Hk; simpl; [reflexivity|].
  apply Forall_cons in Hk as [H0 Hk]. simpl in H0. rewrite H0.
  destruct (k0 =? k); [reflexivity | apply IH, Hk].
Qed.

Lemma keyed_field_ids out : keyed out -> map lcf_field_id (map snd out) = map fst out.
Proof.
  induction out as [|[k0 v0] out IH]; intros Hk; simpl; [reflexivity|].
  apply Forall_cons in Hk as [H0 Hk]. simpl in H0. rewrite H0, IH by exact Hk.
  reflexivity.
Qed.

Lemma assigned_none k ps :
  (forall p, In p ps -> pp_fieldId p = k -> put_skips p = true) -> assigned k ps = None.
Proof.
  intros H. unfold assigned.
  replace (List.filter (fun p => (pp_fieldId p =? k) && negb (put_skips p)) ps)
    with (@nil PutParams); [reflexivity|].
  symmetry. induction ps as [|p ps IH]; simpl; [reflexivity|].
  destruct (pp_fieldId p =? k) eqn:E; simpl.
  - apply Z.eqb_eq in E. rewrite (H p (or_introl eq_refl) E). simpl.
    apply IH. intros q Hq. apply H. right. exact Hq.
  - apply IH. intros q Hq. apply H. right. exact Hq.
Qed.

(** C7. [buildLeadCustomFields] returns at most one assignment per field
    id. The assignment of a field is the one of the last rule that targets
    it and is not skipped, the rules being taken in the order hidden
    parameters, then the static answer refs, then the configured table: a
    later rule overwrites an earlier one. The values are trimmed and not
    empty, and a field all of whose rules have an absent, empty or
    whitespace-only value (and no enum id) gets no assignment. *)
Theorem field_mapping_last_rule_wins fieldMap fr :
  let out := buildLeadCustomFields fieldMap fr in
  NoDup (map lcf_field_id out)
  /\ (forall k, assignment k out =
        COALESCE (assigned k (dynamic_rules fieldMap fr))
          (COALESCE (assigned k (static_rules fr)) (assigned k (hidden_rules fr))))
  /\ (forall e, In e out -> entry_clean e)
  /\ (forall k,
        (forall p, In p (hidden_rules fr ++ static_rules fr ++ dynamic_rules fieldMap fr) ->
                   pp_fieldId p = k -> put_skips p = true) ->
        assignment k out = None).
Proof.
  intros out. unfold out. rewrite buildLeadCustomFields_rules.
  destruct (fold_put_invariants _ [] (rules_wf fieldMap fr)
              ltac:(constructor) ltac:(constructor) ltac:(constructor))
    as (Hn & Hk & Hc).
  assert (Hget : forall k,
    assignment k (map snd (fold_left put
       (hidden_rules fr ++ static_rules fr ++ dynamic_rules fieldMap fr) []))
    = COALESCE (assigned k (dynamic_rules fieldMap fr))
        (COALESCE (assigned k (static_rules fr)) (assigned k (hidden_rules fr)))).
  { intros k. rewrite keyed_assignment by exact Hk.
    rewrite fold_put_get. simpl.
    rewrite COALESCE_None_r, !assigned_app. apply COALESCE_assoc. }
  split; [rewrite keyed_field_ids by exact Hk; exact Hn|].
  split; [exact Hget|]. split.
  - intros e He. apply in_map_iff in He as ([k v] & <- & Hin).
    rewrite Forall_forall in Hc. apply list_elem_of_In in Hin. exact (Hc _ Hin).
  - intros k Hall. rewrite keyed_assignment by exact Hk. rewrite fold_put_get. simpl.
    rewrite (assigned_none k _ Hall). reflexivity.
Qed.

(** ** Worked deliveries *)

(** A duplicate of [event-1] against its record: the lead id comes back and
    nothing moves, also over five replays. *)
Lemma duplicate_short_circuit_witness :
  exists r,
    rp_status r = 200 /\ rp_ok r = true
    /\ rp_leadId r = Some 501
    /\ replay Sample.config Sample.fieldMap Sample.event 5 Sample.world_done
       = (repeat r 5, Sample.world_done).
Proof.
  destruct (duplicate_short_circuit Sample.config Sample.fieldMap Sample.event
              Sample.form "token-1" "form-1" "event-1") as [Hdup _];
    try solve [reflexivity | discriminate].
  destruct (Hdup Sample.world_done Sample.row_done eq_refl eq_refl)
    as (r & Hst & Hok & Hlead & Hreplay).
  exists r. repeat split; try assumption. apply Hreplay.
Defined.

(** The reply to a duplicate has no contact id although the record stores
    one; and a record whose stored event id is the empty string does not
    stop an event with the empty event id from being reconciled again. *)
Lemma duplicate_reply_omits_contact :
  (getSubmissionByToken (submissions Sample.world_done) "token-1" = Some Sample.row_done
   /\ row_last_event_id Sample.row_done = event_id Sample.event
   /\ row_amo_contact_id Sample.row_done = Some 77
   /\ rp_contactId
        (fst (handle Sample.config Sample.fieldMap Sample.event Sample.world_done))
      <> row_amo_contact_id Sample.row_done)
  /\ (getSubmissionByToken (submissions Sample.world_empty_id) "token-1"
      = Some Sample.row_empty_id
      /\ row_last_event_id Sample.row_empty_id = event_id Sample.event_empty_id
      /\ calls (sent (snd (handle Sample.config Sample.fieldMap Sample.event_empty_id
                             Sample.world_empty_id)))
         <> []).
Proof.
  repeat split; try reflexivity; vm_compute; discriminate.
Qed.

Lemma upsert_merge_policy_witness :
  exists new,
    getSubmissionByToken (upsertSubmission Sample.upsert_without_ids [Sample.row_done])
      "token-1" = Some new
    /\ row_form_id new = "form-2"%string
    /\ row_landing_id new = Some "landing-1"%string
    /\ row_submitted_at new = Some "2024-05-01T10:00:00Z"%string
    /\ row_last_event_id new = Some "event-2"%string
    /\ row_last_event_type new = Some "form_response"%string
    /\ row_amo_lead_id new = Some 501
    /\ row_amo_contact_id new = Some 77.
Proof.
  destruct (upsert_merge_policy [Sample.row_done] Sample.upsert_without_ids
              Sample.row_done eq_refl)
    as (new & Hget & Hform & _ & Hland & Hsub & Hev & Hty & Hlead & Hcon & _).
  exists new. repeat split; assumption.
Defined.



(** [event-1] on a record with lead 501 and no contact. *)
Lemma existing_lead_gets_one_contact_witness :
  let run := handle Sample.config Sample.fieldMap Sample.event Sample.world_lead_only in
  rp_status (fst run) = 200
  /\ rp_leadId (fst run) = Some 501
  /\ rp_contactId (fst run) = Some 78
  /\ List.filter is_contact_create (calls (new_events Sample.world_lead_only (snd run)))
     = [contact_create_call (extractContactBits Sample.form)]
  /\ In (link_call 501 78) (calls (new_events Sample.world_lead_only (snd run))).
Proof.
  intros run.
  destruct (existing_lead_gets_one_contact Sample.config Sample.fieldMap Sample.event
              Sample.form "token-1" "form-1" Sample.row_lead_only 501
              Sample.world_lead_only (fst run) (snd run)) as [_ Hok];
    try solve [reflexivity | discriminate].
  destruct (Hok eq_refl) as (c & Hl & Hc & _ & Hcalls & Hone & _).
  assert (Hc78 : c = 78) by (vm_compute in Hc; congruence). subst c.
  repeat split; try assumption; try reflexivity.
  rewrite Hcalls. simpl. auto.
Defined.

(** A new lead with an email: the five calls in order. *)
Lemma new_lead_call_order_witness :
  let contact := extractContactBits Sample.form in
  let fields := buildLeadCustomFields Sample.fieldMap Sample.form in
  let run := createOrUpdateByTypeform Sample.config None None "summary" fields contact
               Sample.world_new in
  fst run = Return (501, Some 77)
  /\ calls (new_events Sample.world_new (snd run))
     = [ lead_create_call Sample.config "Typeform: ann@example.org";
         contact_create_call contact;
         link_call 501 77;
         lead_fields_call 501 fields;
         note_call 501 "summary" ].
Proof.
  intros contact fields run. split; [reflexivity|].
  destruct (new_lead_call_order Sample.config None None "summary" fields contact
              Sample.world_new 501 (Some 77) (snd run) eq_refl) as (_ & _ & Horder).
  destruct (Horder eq_refl eq_refl) as (c & Hc & _ & Hcalls).
  inversion Hc; subst c. exact Hcalls.
Defined.

(** The CRM fails the first call of a delivery: 500, and the record of the
    token is as before. *)
Lemma failed_delivery_keeps_ledger_witness :
  let run := handle Sample.config Sample.fieldMap Sample.event Sample.world_failing in
  rp_status (fst run) = 500
  /\ submissions (snd run) = [Sample.row_lead_only]
  /\ handle Sample.config Sample.fieldMap Sample.event_no_token Sample.world_failing
     = (invalid_payload, Sample.world_failing).
Proof.
  intros run. split; [reflexivity|]. split.
  - destruct (failed_delivery_keeps_ledger Sample.config Sample.fieldMap Sample.event
                Sample.world_failing (fst run) (snd run) eq_refl) as (_ & Hkeep & _).
    apply Hkeep. vm_compute. discriminate.
  - destruct (failed_delivery_keeps_ledger Sample.config Sample.fieldMap
                Sample.event_no_token Sample.world_failing
                (fst (handle Sample.config Sample.fieldMap Sample.event_no_token
                        Sample.world_failing))
                (snd (handle Sample.config Sample.fieldMap Sample.event_no_token
                        Sample.world_failing)) eq_refl) as (Hbad & _).
    destruct (Hbad eq_refl) as [Hr Hw]. reflexivity.
Defined.

(** The hidden [utm_source], then the configured table for the same field:
    the table's value is the assignment; the blank answer mapped to
    [utm_term] leaves no assignment. *)
Lemma field_mapping_last_rule_wins_witness :
  let out := buildLeadCustomFields Sample.fieldMap Sample.form in
  NoDup (map lcf_field_id out)
  /\ assignment 214697 out
     = Some {| lcf_field_id := 214697;
               lcf_values := [ {| cv_value := Some "newsletter"%string;
                                  cv_enum_id := None |} ] |}
  /\ assignment 214699 out = None.
Proof.
  intros out. subst out.
  destruct (field_mapping_last_rule_wins Sample.fieldMap Sample.form)
    as (Hn & Hlast & _ & Hnone).
  split; [exact Hn|]. split.
  - rewrite (Hlast 214697). reflexivity.
  - apply Hnone. intros p Hp Hk. vm_compute in Hp.
    destruct Hp as [<-|[<-|[<-|[]]]]; solve [reflexivity | discriminate Hk].
Defined.

(** A new lead is named after the email. *)
Lemma lead_name_rule_witness :
  let contact := extractContactBits Sample.form in
  let fields := buildLeadCustomFields Sample.fieldMap Sample.form in
  let run := createOrUpdateByTypeform Sample.config None None "summary" fields contact
               Sample.world_new in
  head (calls (new_events Sample.world_new (snd run)))
  = Some (lead_create_call Sample.config "Typeform: ann@example.org").
Proof.
  intros contact fields run.
  destruct (lead_name_rule Sample.config None None "summary" fields contact
              Sample.world_new (fst run) (snd run) eq_refl) as (Hnew & _ & _).
  destruct (Hnew eq_refl) as [_ Hfirst].
  exact (Hfirst 501 (Some 77) eq_refl).
Defined.


(** Answers before hidden parameters: the hidden email is not used. *)
Lemma extractContactBits_priority_witness :
  extractContactBits Sample.form
  = {| cb_name := Some "newsletter"%string;
       cb_email := Some "ann@example.org"%string;
       cb_phone := None |}.
Proof. rewrite extractContactBits_priority. reflexivity. Defined.

(** * Further properties of the code *)

(** ** The ledger *)

Lemma filter_other_length tok (t : Ledger) :
  ledger_unique t ->
  length (List.filter (fun r => negb (has_token tok r)) t)
  = match getSubmissionByToken t tok with
    | Some _ => pred (length t)
    | None => length t
    end.
Proof.
  unfold ledger_unique, getSubmissionByToken.
  induction t as [|r t IH]; intros Hu; simpl; [reflexivity|].
  apply NoDup_cons in Hu as [Hn Hu]. specialize (IH Hu).
  destruct (has_token tok r) eqn:E; simpl.
  - (* the row of the token: no other row has it *)
    assert (Hnone : find (has_token tok) t = None).
    { destruct (find (has_token tok) t) as [r'|] eqn:F; [|reflexivity].
      apply find_some in F as [Hin Ht]. exfalso. apply Hn.
      unfold has_token in E, Ht. apply String.eqb_eq in E, Ht.
      apply list_elem_of_In, in_map_iff. exists r'. split; [congruence | exact Hin]. }
    rewrite Hnone in IH. exact IH.
  - rewrite IH. destruct (find (has_token tok) t) as [r'|] eqn:F; [|reflexivity].
    apply find_some in F as [Hin _]. destruct t; [destruct Hin | reflexivity].
Qed.

(** X1. Looking up the token just upserted finds its record: it has that token,
    the form id and the payload given; for a token not seen before every
    column is the parameter given, an empty [submitted_at] stored as null. *)
Theorem upsert_then_lookup (p : UpsertParams) (t : Ledger) :
  exists row,
    getSubmissionByToken (upsertSubmission p t) (up_responseToken p) = Some row
    /\ row_response_token row = up_responseToken p
    /\ row_form_id row = up_formId p
    /\ row_last_payload row = up_lastPayload p
    /\ (getSubmissionByToken t (up_responseToken p) = None ->
        row_landing_id row = up_landingId p
        /\ row_submitted_at row
           = (if Js.truthy (up_submittedAt p) then up_submittedAt p else None)
        /\ row_last_event_id row = up_lastEventId p
        /\ row_last_event_type row = up_lastEventType p
        /\ row_amo_lead_id row = up_amoLeadId p
        /\ row_amo_contact_id row = up_amoContactId p).
Proof.
  rewrite upsert_same. eexists. split; [reflexivity|].
  destruct (getSubmissionByToken t (up_responseToken p)) as [old|] eqn:E; simpl.
  - apply getSubmissionByToken_token in E.
    repeat split; solve [assumption | reflexivity | discriminate].
  - repeat split.
Qed.

(** X2. An upsert leaves the record of every other token as it was. *)
Theorem upsert_leaves_other_tokens (p : UpsertParams) (t : Ledger) (tok : string) :
  tok <> up_responseToken p ->
  getSubmissionByToken (upsertSubmission p t) tok = getSubmissionByToken t tok.
Proof. apply upsert_other. Qed.

Lemma upsert_leaves_other_tokens_witness :
  getSubmissionByToken (upsertSubmission More.upsert_other_token [Sample.row_done])
    "token-1" = Some Sample.row_done.
Proof.
  rewrite (upsert_leaves_other_tokens More.upsert_other_token [Sample.row_done] "token-1");
    [reflexivity | discriminate].
Defined.

(** X3. The table keeps one row per response token, and an upsert adds a row
    exactly when the token was not there. *)
Theorem upsert_keeps_one_row_per_token (p : UpsertParams) (t : Ledger) :
  ledger_unique t ->
  ledger_unique (upsertSubmission p t)
  /\ length (upsertSubmission p t)
     = match getSubmissionByToken t (up_responseToken p) with
       | Some _ => length t
       | None => S (length t)
       end.
Proof.
  intros Hu. split; [apply upsert_unique, Hu|].
  unfold upsertSubmission.
  pose proof (filter_other_length (up_responseToken p) t Hu) as Hlen.
  destruct (getSubmissionByToken t (up_responseToken p)) as [old|] eqn:E; simpl;
    [|reflexivity].
  rewrite Hlen. unfold getSubmissionByToken in E. apply find_some in E as [Hin _].
  destruct t; [destruct Hin | reflexivity].
Qed.

Lemma upsert_keeps_one_row_per_token_witness :
  ledger_unique (upsertSubmission Sample.upsert_without_ids [Sample.row_done])
  /\ length (upsertSubmission Sample.upsert_without_ids [Sample.row_done]) = 1%nat.
Proof.
  apply (upsert_keeps_one_row_per_token Sample.upsert_without_ids [Sample.row_done]).
  unfold ledger_unique. simpl. apply NoDup_cons. split; [|apply NoDup_nil_2].
  intros H. inversion H.
Defined.

(** X4. After an upsert that gives a landing id, the latest record of that form
    and landing is the one just written, whatever the table held. *)
Theorem latest_by_landing_after_upsert (p : UpsertParams) (t : Ledger) (landing : string) :
  up_landingId p = Some landing ->
  getLatestSubmissionByLandingId (upsertSubmission p t) (up_formId p) landing
  = Some (upserted_row p t)
  /\ row_response_token (upserted_row p t) = up_responseToken p.
Proof.
  intros Hl. unfold upserted_row, upsertSubmission, getLatestSubmissionByLandingId.
  destruct (getSubmissionByToken t (up_responseToken p)) as [old|] eqn:E;
    cbn [find]; simpl; rewrite Hl; simpl; rewrite !String.eqb_refl; simpl.
  - split; [reflexivity|]. apply getSubmissionByToken_token in E. exact E.
  - split; reflexivity.
Qed.

Lemma latest_by_landing_after_upsert_witness :
  getLatestSubmissionByLandingId
    (upsertSubmission More.upsert_other_token [Sample.row_done]) "form-1" "landing-1"
  = Some (EXCLUDED More.upsert_other_token).
Proof.
  exact (proj1 (latest_by_landing_after_upsert More.upsert_other_token
                  [Sample.row_done] "landing-1" eq_refl)).
Defined.

(** ** The ledger under the handler *)

Lemma bind_returns {A B} (c : M A) (k : A -> M B) w b w' :
  bind c k w = (Return b, w') ->
  exists a w1, c w = (Return a, w1) /\ k a w1 = (Return b, w').
Proof.
  unfold bind. destruct (c w) as [[a|e] w1]; [eauto | discriminate].
Qed.

(** The lead id a reconciliation returns is the existing one when there is
    one, and otherwise a created id, which is not 0. *)
Lemma createOrUpdateByTypeform_lead config el ec s f c w leadId contactId w' :
  createOrUpdateByTypeform config el ec s f c w = (Return (leadId, contactId), w') ->
  match el with
  | Some l => leadId = l
  | None => leadId <> 0
  end.
Proof.
  unfold createOrUpdateByTypeform. intros H.
  apply bind_returns in H as (lead & w1 & Hlead & H).
  apply bind_returns in H as (cid & w2 & _ & H).
  apply bind_returns in H as (u1 & w3 & _ & H).
  apply bind_returns in H as (u2 & w4 & _ & H).
  apply bind_returns in H as (u3 & w5 & _ & H).
  apply ret_returns in H as [H _]. inversion H; subst lead cid.
  destruct el as [l|].
  - apply ret_returns in Hlead as [Hl _]. exact Hl.
  - apply createLead_returns in Hlead as [Hnz _]. exact Hnz.
Qed.

Lemma lookupExisting_In t tok fid landing row :
  lookupExisting t tok fid landing = Some row -> In row t.
Proof.
  unfold lookupExisting, getSubmissionByToken, getLatestSubmissionByLandingId.
  destruct (find (has_token tok) t) as [r|] eqn:E.
  - intros H; inversion H; subst. apply find_some in E. tauto.
  - destruct landing as [[|c s]|]; try discriminate.
    intros H. apply find_some in H. tauto.
Qed.

(** What one delivery does to the table: nothing, or the handler's upsert
    with the ids the reconciliation returned. *)
Lemma handle_step config fieldMap payload w r w' :
  handle config fieldMap payload w = (r, w') ->
  submissions w' = submissions w
  \/ exists fr tok fid leadId contactId,
       form_response payload = Some fr
       /\ token fr = Some tok /\ tok <> ""%string
       /\ form_id fr = Some fid /\ fid <> ""%string
       /\ submissions w'
          = upsertSubmission (handler_upsert payload fr tok fid leadId contactId)
              (submissions w)
       /\ r = {| rp_status := 200; rp_ok := true; rp_leadId := Some leadId;
                 rp_contactId := contactId; rp_error := None |}
       /\ createOrUpdateByTypeform config
            (lookupExisting (submissions w) tok fid (landing_id fr) ≫= row_amo_lead_id)
            (lookupExisting (submissions w) tok fid (landing_id fr) ≫= row_amo_contact_id)
            (stringifyAnswers fr) (buildLeadCustomFields fieldMap fr)
            (extractContactBits fr) w
          = (Return (leadId, contactId),
             {| kv := kv w'; submissions := submissions w;
                remote := remote w'; sent := sent w' |}).
Proof.
  intros H. unfold handle in H.
  destruct (form_response payload) as [fr|] eqn:Hfr; [|inversion H; auto].
  destruct (token fr) as [[|c1 t1]|] eqn:Ht; try (inversion H; subst; auto; fail).
  destruct (form_id fr) as [[|c2 t2]|] eqn:Hf; try (inversion H; subst; auto; fail).
  destruct (isDuplicate _ payload); [inversion H; subst; auto|].
  apply reconcile_cases in H as [(e & Hc & _)|(l & c & w1 & Hc & -> & ->)].
  - left. apply createOrUpdateByTypeform_frame in Hc as [Hs _]. exact Hs.
  - right. pose proof (createOrUpdateByTypeform_frame _ _ _ _ _ _ _ _ _ Hc) as [Hs _].
    exists fr, (String c1 t1), (String c2 t2), l, c.
    repeat split; try reflexivity; try discriminate; try assumption.
    + simpl. rewrite Hs. reflexivity.
    + simpl. rewrite Hc. f_equal. destruct w1; simpl in *. subst. reflexivity.
Qed.

Lemma Forall_upsert (Q : SubmissionRow -> Prop) p t :
  Forall Q t -> Q (upserted_row p t) -> Forall Q (upsertSubmission p t).
Proof.
  intros Ht Hq. unfold upsertSubmission, upserted_row in *.
  assert (Hf : Forall Q (List.filter
                 (fun r => negb (has_token (up_responseToken p) r)) t)).
  { rewrite Forall_forall in *. intros x Hx. apply Ht.
    apply list_elem_of_In in Hx. apply filter_In in Hx as [Hx _].
    apply list_elem_of_In. exact Hx. }
  destruct (getSubmissionByToken t (up_responseToken p));
    apply Forall_cons; split; assumption.
Qed.

Lemma lookup_Forall (Q : SubmissionRow -> Prop) t tok row :
  Forall Q t -> getSubmissionByToken t tok = Some row -> Q row.
Proof.
  intros Ht H. apply find_some in H as [Hin _].
  rewrite Forall_forall in Ht. apply Ht, list_elem_of_In, Hin.
Qed.

(** The contact id a reconciliation returns, given records without 0 ids:
    it is not 0. *)
Lemma returned_contact_nonzero config el ec s f c w leadId contactId w' :
  createOrUpdateByTypeform config el ec s f c w = (Return (leadId, contactId), w') ->
  ec <> Some 0 -> contactId <> Some 0.
Proof.
  intros H Hec. apply createOrUpdateByTypeform_calls in H as (_ & _ & Ht & Hf & _).
  destruct (creates_contact el ec c).
  - specialize (Ht eq_refl). intros ->. discriminate Ht.
  - rewrite (Hf eq_refl). destruct (truthyZ el); [exact Hec | discriminate].
Qed.

Lemma handle_keeps_invariants config fieldMap payload w :
  ledger_unique (submissions w) /\ rows_have_lead (submissions w)
  /\ ids_nonzero (submissions w) ->
  let w' := snd (handle config fieldMap payload w) in
  ledger_unique (submissions w') /\ rows_have_lead (submissions w')
  /\ ids_nonzero (submissions w').
Proof.
  intros (Hu & Hl & Hz) w'.
  destruct (handle config fieldMap payload w) as [r w1] eqn:H. subst w'. simpl.
  apply handle_step in H as [->|(fr & tok & fid & l & c & _ & _ & _ & _ & _ & -> & _ & Hc)];
    [auto|].
  set (existing := lookupExisting (submissions w) tok fid (landing_id fr)) in *.
  assert (Hex : existing ≫= row_amo_lead_id <> Some 0
                /\ existing ≫= row_amo_contact_id <> Some 0).
  { destruct existing as [row|] eqn:E; simpl; [|split; discriminate].
    apply lookupExisting_In in E. unfold ids_nonzero in Hz.
    rewrite Forall_forall in Hz. apply Hz, list_elem_of_In, E. }
  pose proof (createOrUpdateByTypeform_lead _ _ _ _ _ _ _ _ _ _ Hc) as Hlead.
  pose proof (returned_contact_nonzero _ _ _ _ _ _ _ _ _ _ Hc (proj2 Hex)) as Hcon.
  assert (Hlz : l <> 0).
  { destruct (existing ≫= row_amo_lead_id) as [l0|]; [|exact Hlead].
    subst l0. intros ->. apply (proj1 Hex). reflexivity. }
  split; [apply upsert_unique, Hu|]. split.
  - apply Forall_upsert; [exact Hl|]. unfold upserted_row. simpl.
    destruct (getSubmissionByToken (submissions w) tok); simpl; eexists; reflexivity.
  - apply Forall_upsert; [exact Hz|]. unfold upserted_row. simpl.
    destruct (getSubmissionByToken (submissions w) tok) as [old|] eqn:Eo; simpl.
    + split; [intros Heq; inversion Heq; contradiction|].
      destruct c as [c|]; simpl; [exact Hcon|].
      exact (proj2 (lookup_Forall _ _ _ _ Hz Eo)).
    + split; [intros Heq; inversion Heq; contradiction | exact Hcon].
Qed.

(** X5. Over any sequence of deliveries the table keeps one row per token, every
    row has a lead id, and no stored id is 0; in particular this holds of
    every table reached from the empty one. *)
Theorem deliveries_keep_ledger_invariants config fieldMap payloads w :
  ledger_unique (submissions w) -> rows_have_lead (submissions w) ->
  ids_nonzero (submissions w) ->
  let w' := deliver_all config fieldMap payloads w in
  ledger_unique (submissions w') /\ rows_have_lead (submissions w')
  /\ ids_nonzero (submissions w').
Proof.
  intros Hu Hl Hz. simpl. revert w Hu Hl Hz.
  induction payloads as [|p ps IH]; intros w Hu Hl Hz; simpl; [auto|].
  destruct (handle_keeps_invariants config fieldMap p w (conj Hu (conj Hl Hz)))
    as (Hu' & Hl' & Hz').
  apply IH; assumption.
Qed.

Lemma deliveries_keep_ledger_invariants_witness :
  let w' := deliver_all Sample.config Sample.fieldMap
              [Sample.event; Sample.event; Sample.event_no_id] Sample.world_new in
  ledger_unique (submissions w') /\ rows_have_lead (submissions w')
  /\ ids_nonzero (submissions w').
Proof.
  apply (deliveries_keep_ledger_invariants Sample.config Sample.fieldMap
           [Sample.event; Sample.event; Sample.event_no_id] Sample.world_new);
    constructor.
Defined.

Lemma handle_keeps_token_ids config fieldMap payload w tok row :
  ids_nonzero (submissions w) ->
  getSubmissionByToken (submissions w) tok = Some row ->
  is_Some (row_amo_lead_id row) ->
  exists row',
    getSubmissionByToken (submissions (snd (handle config fieldMap payload w))) tok
    = Some row'
    /\ row_amo_lead_id row' = row_amo_lead_id row
    /\ (is_Some (row_amo_contact_id row) ->
        row_amo_contact_id row' = row_amo_contact_id row).
Proof.
  intros Hz Hrow [lead Hlead].
  destruct (handle config fieldMap payload w) as [r w1] eqn:H. simpl.
  apply handle_step in H
    as [->|(fr & tok' & fid & l & c & _ & _ & _ & _ & _ & -> & _ & Hc)]; [eauto|].
  destruct (decide (tok = tok')) as [<-|Hne].
  2:{ rewrite upsert_other by exact Hne. eauto. }
  rewrite upsert_same. simpl. rewrite Hrow. eexists. split; [reflexivity|]. simpl.
  unfold lookupExisting in Hc. rewrite Hrow in Hc. simpl in Hc.
  rewrite Hlead in Hc.
  pose proof (createOrUpdateByTypeform_lead _ _ _ _ _ _ _ _ _ _ Hc) as Hl.
  simpl in Hl. subst l. split; [symmetry; exact Hlead|].
  intros [contact Hcon]. rewrite Hcon in Hc |- *.
  destruct (lookup_Forall _ _ _ _ Hz Hrow) as [Hlz Hcz].
  apply createOrUpdateByTypeform_calls in Hc as (_ & _ & _ & Hkeep & _).
  assert (Htl : truthyZ (Some lead) = true).
  { simpl. destruct (lead =? 0) eqn:E; [|reflexivity].
    apply Z.eqb_eq in E. subst. congruence. }
  assert (Htc : truthyZ (Some contact) = true).
  { simpl. destruct (contact =? 0) eqn:E; [|reflexivity].
    apply Z.eqb_eq in E. subst. congruence. }
  unfold creates_contact in Hkeep. rewrite Htl, Htc in Hkeep.
  rewrite (Hkeep eq_refl). reflexivity.
Qed.

(** X6. The CRM ids recorded for a response token never change: over any
    sequence of deliveries (for this or other tokens, new or duplicate,
    failing or not) the record of the token keeps its lead id, and its
    contact id once it has one. *)
Theorem token_ids_are_stable config fieldMap payloads w tok row :
  ledger_unique (submissions w) -> rows_have_lead (submissions w) ->
  ids_nonzero (submissions w) ->
  getSubmissionByToken (submissions w) tok = Some row ->
  exists row',
    getSubmissionByToken (submissions (deliver_all config fieldMap payloads w)) tok
    = Some row'
    /\ row_amo_lead_id row' = row_amo_lead_id row
    /\ (is_Some (row_amo_contact_id row) ->
        row_amo_contact_id row' = row_amo_contact_id row).
Proof.
  revert w row. induction payloads as [|p ps IH]; intros w row Hu Hl Hz Hrow; simpl.
  - eauto.
  - pose proof (lookup_Forall _ _ _ _ Hl Hrow) as Hhas.
    destruct (handle_keeps_token_ids config fieldMap p w tok row Hz Hrow Hhas)
      as (row1 & Hrow1 & Hl1 & Hc1).
    destruct (handle_keeps_invariants config fieldMap p w (conj Hu (conj Hl Hz)))
      as (Hu' & Hl' & Hz').
    destruct (IH _ row1 Hu' Hl' Hz' Hrow1) as (row2 & Hrow2 & Hl2 & Hc2).
    exists row2. split; [exact Hrow2|]. split; [congruence|].
    intros Hsome. rewrite Hc2; [apply Hc1, Hsome|]. rewrite Hc1; assumption.
Qed.

Lemma token_ids_are_stable_witness :
  exists row',
    getSubmissionByToken
      (submissions (deliver_all Sample.config Sample.fieldMap
                      [Sample.event_no_id; More.event_other; Sample.event]
                      Sample.world_lead_only)) "token-1" = Some row'
    /\ row_amo_lead_id row' = Some 501.
Proof.
  destruct (token_ids_are_stable Sample.config Sample.fieldMap
              [Sample.event_no_id; More.event_other; Sample.event]
              Sample.world_lead_only "token-1" Sample.row_lead_only)
    as (row' & Hrow & Hlead & _).
  - unfold ledger_unique. simpl. apply NoDup_cons. split; [|apply NoDup_nil_2].
    intros H. inversion H.
  - repeat constructor. eexists. reflexivity.
  - repeat constructor; discriminate.
  - reflexivity.
  - exists row'. split; assumption.
Defined.

(** X7. A delivery writes at most the record of its own response token: the
    record of any other token is as before, whatever the outcome. *)
Theorem delivery_touches_own_token config fieldMap payload w tok :
  form_response payload ≫= token <> Some tok ->
  getSubmissionByToken (submissions (snd (handle config fieldMap payload w))) tok
  = getSubmissionByToken (submissions w) tok.
Proof.
  intros Hne. destruct (handle config fieldMap payload w) as [r w1] eqn:H. simpl.
  apply handle_step in H
    as [->|(fr & tok' & fid & l & c & Hfr & Ht & _ & _ & _ & -> & _)]; [reflexivity|].
  apply upsert_other. simpl. intros ->. apply Hne. rewrite Hfr. exact Ht.
Qed.

Lemma delivery_touches_own_token_witness :
  getSubmissionByToken
    (submissions (snd (handle Sample.config Sample.fieldMap More.event_other
                         More.world_landing))) "token-1"
  = Some Sample.row_done.
Proof.
  rewrite (delivery_touches_own_token Sample.config Sample.fieldMap More.event_other
             More.world_landing "token-1"); [reflexivity | discriminate].
Defined.





(** ** The requests on the wire *)

Section Emits.
Context (Q : Event -> Prop).

Lemma emits_pure {A} (c : M A) :
  (forall w r w', c w = (r, w') -> sent w' = sent w) -> emits Q c.
Proof.
  intros Hc w r w' H. exists []. rewrite app_nil_r.
  split; [exact (Hc _ _ _ H) | constructor].
Qed.

Lemma emits_ret {A} (a : A) : emits Q (ret a).
Proof. apply emits_pure. intros w r w' H. inversion H. reflexivity. Qed.

Lemma emits_throw {A} e : emits Q (@throw A e).
Proof. apply emits_pure. intros w r w' H. inversion H. reflexivity. Qed.

Lemma emits_bind {A B} (c : M A) (k : A -> M B) :
  emits Q c -> (forall a, emits Q (k a)) -> emits Q (bind c k).
Proof.
  intros Hc Hk w r w' H. unfold bind in H.
  destruct (c w) as [[a|e] w1] eqn:E.
  - destruct (Hc _ _ _ E) as (evs1 & Hl1 & Hf1).
    destruct (Hk a _ _ _ H) as (evs2 & Hl2 & Hf2).
    exists (evs1 ++ evs2). rewrite Hl2, Hl1, app_assoc. split; [reflexivity|].
    apply Forall_app. split; assumption.
  - inversion H; subst. exact (Hc _ _ _ E).
Qed.

Lemma emits_ext {A} (c c' : M A) :
  (forall w, c w = c' w) -> emits Q c' -> emits Q c.
Proof. intros He Hc w r w' H. rewrite He in H. exact (Hc _ _ _ H). Qed.

Lemma emits_fetch ev : Q ev -> emits Q (fetch ev).
Proof.
  intros Hev w r w' H. exists [ev]. split; [exact (fetch_sent _ _ _ _ H)|].
  constructor; [exact Hev | constructor].
Qed.

Lemma emits_kvGet key : emits Q (kvGet key).
Proof. apply emits_pure. intros w r w' H. inversion H. reflexivity. Qed.

Lemma emits_kvSet key value : emits Q (kvSet key value).
Proof. apply emits_pure. intros w r w' H. inversion H. reflexivity. Qed.

Lemma emits_check_ok op res : emits Q (check_ok op res).
Proof. unfold check_ok. destruct (negb (ok res)); [apply emits_throw | apply emits_ret]. Qed.

Lemma emits_created_id op read res : emits Q (created_id op read res).
Proof.
  unfold created_id. destruct (json res) as [j|]; [|apply emits_throw].
  destruct (read j) as [id|]; [|apply emits_throw].
  destruct (id =? 0); [apply emits_throw | apply emits_ret].
Qed.

End Emits.

Ltac emit_step :=
  first
    [ apply emits_ret
    | apply emits_throw
    | apply emits_check_ok
    | apply emits_created_id
    | apply emits_kvGet
    | apply emits_kvSet
    | apply emits_bind; [|intros ?]
    | match goal with
      | |- emits _ (if ?b then _ else _) => destruct b
      | |- emits _ (match ?x with _ => _ end) => destruct x
      end ].

Lemma getAccessToken_nonempty config w token w' :
  getAccessToken config w = (Return token, w') -> token <> ""%string.
Proof.
  unfold getAccessToken, bind, kvGet, ret, throw.
  destruct (kv w !! KV_ACCESS) as [[|c t]|];
    destruct (accessToken config) as [[|c' t']|];
    intros H; inversion H; discriminate.
Qed.

Section WellAddressed.
Context (config : AmoConfig).

Lemma emits_maybeRefresh : emits (well_addressed config) (maybeRefresh config).
Proof.
  unfold maybeRefresh.
  destruct (negb _); [apply emits_ret|].
  apply emits_bind; [apply emits_kvGet|]. intros fromDb.
  destruct (COALESCE fromDb (refreshToken config)) as [[|c t]|]; try apply emits_ret.
  apply emits_bind.
  - apply emits_fetch. simpl. repeat split. exists (String c t).
    split; [discriminate | reflexivity].
  - intros res. repeat emit_step.
Qed.

(** The token read and the request that carries it. *)
Lemma emits_attempt retry input method body :
  input <> EpToken ->
  emits (well_addressed config)
    (await token <- getAccessToken config;
     fetch (Sent retry (request_of config method input body token))).
Proof.
  intros Hep w r w' H. unfold bind in H.
  destruct (getAccessToken config w) as [[token|e] w1] eqn:Et.
  - pose proof (getAccessToken_nonempty _ _ _ _ Et) as Hne.
    apply getAccessToken_pure in Et. subst w1.
    exists [Sent retry (request_of config method input body token)].
    split; [exact (fetch_sent _ _ _ _ H)|].
    constructor; [|constructor]. simpl. repeat split; [exact Hep|]. eauto.
  - apply getAccessToken_pure in Et. inversion H; subst.
    exists []. rewrite app_nil_r. split; [reflexivity | constructor].
Qed.

Lemma emits_amoFetch input method body :
  input <> EpToken ->
  emits (well_addressed config) (amoFetch config true input method body).
Proof.
  intros Hep.
  eapply emits_ext; [intros w; apply amoFetch_true_eq|].
  intros w r w' H. unfold bind in H at 1 2.
  destruct (getAccessToken config w) as [[token|e] w1] eqn:Et.
  2:{ apply getAccessToken_pure in Et. inversion H; subst.
      exists []. rewrite app_nil_r. split; [reflexivity | constructor]. }
  pose proof (getAccessToken_nonempty _ _ _ _ Et) as Hne.
  apply getAccessToken_pure in Et. subst w1.
  assert (Hfirst : well_addressed config
                     (Sent true (request_of config method input body token))).
  { simpl. repeat split; [exact Hep|]. eauto. }
  destruct (fetch _ w) as [[res|e] w1] eqn:E1; pose proof (fetch_sent _ _ _ _ E1) as Hs1.
  2:{ inversion H; subst. eexists. split; [exact Hs1|].
      constructor; [exact Hfirst | constructor]. }
  destruct (status res =? 401).
  2:{ inversion H; subst. eexists. split; [exact Hs1|].
      constructor; [exact Hfirst | constructor]. }
  assert (Hrest : emits (well_addressed config)
            (await _ <- maybeRefresh config;
             await token2 <- getAccessToken config;
             fetch (Sent false (request_of config method input body token2)))).
  { apply emits_bind; [apply emits_maybeRefresh|]. intros _.
    apply emits_attempt, Hep. }
  destruct (Hrest _ _ _ H) as (evs & Hs & Hall).
  exists (Sent true (request_of config method input body token) :: evs).
  split; [rewrite Hs, Hs1, <- app_assoc; reflexivity|].
  constructor; assumption.
Qed.

Lemma emits_createOrUpdateByTypeform el ec s f c :
  emits (well_addressed config) (createOrUpdateByTypeform config el ec s f c).
Proof.
  unfold createOrUpdateByTypeform, createLead, createContact, updateContact,
    linkLeadToContact, updateLeadCustomFields, addLeadNote.
  repeat first [ apply emits_amoFetch; discriminate | emit_step ].
Qed.

End WellAddressed.

(** X10. Whatever a delivery sends and however it ends: each request to the
    object API carries a non-empty bearer token and goes to the configured
    host, never to the token endpoint; each token exchange goes to the token
    endpoint of that host without a bearer token, with the configured client
    credentials and a non-empty refresh token. *)
Theorem requests_are_well_addressed config fieldMap payload w :
  Forall (well_addressed config)
    (new_events w (snd (handle config fieldMap payload w))).
Proof.
  assert (Hnil : Forall (well_addressed config) (new_events w w))
    by (unfold new_events; rewrite drop_all; constructor).
  unfold handle. destruct (form_response payload) as [fr|]; [|exact Hnil].
  destruct (token fr) as [[|c1 t1]|]; try exact Hnil.
  destruct (form_id fr) as [[|c2 t2]|]; try exact Hnil.
  destruct (isDuplicate _ payload); [exact Hnil|].
  unfold reconcile.
  destruct (createOrUpdateByTypeform _ _ _ _ _ _ w) as [[[l c]|e] w1] eqn:Hc;
    destruct (emits_createOrUpdateByTypeform _ _ _ _ _ _ _ _ _ Hc) as (evs & Hs & Hall);
    simpl; unfold new_events; simpl; fold (new_events w w1);
    rewrite (new_events_app _ _ _ Hs); exact Hall.
Qed.

(** ** The credential store *)

(** X11. [getAccessToken] reads and never writes. The token it returns is not
    empty: the stored one when that is not empty, else the configured one;
    it fails, with the configuration error, exactly when neither is there. *)
Theorem access_token_precedence config w r w' :
  getAccessToken config w = (r, w') ->
  w' = w
  /\ match r with
     | Return token =>
         token <> ""%string
         /\ Some token = COALESCE (carried (kv w !! KV_ACCESS))
                           (carried (accessToken config))
     | Throw e =>
         e = NoAccessToken
         /\ carried (kv w !! KV_ACCESS) = None
         /\ carried (accessToken config) = None
     end.
Proof.
  intros H. split; [exact (getAccessToken_pure _ _ _ _ H)|].
  unfold getAccessToken, bind, kvGet, ret, throw, carried in *.
  destruct (kv w !! KV_ACCESS) as [[|c t]|];
    destruct (accessToken config) as [[|c' t']|];
    inversion H; subst; simpl; repeat split; discriminate.
Qed.

Lemma access_token_precedence_witness :
  getAccessToken Sample.config More.world_stored
  = (Return "stored"%string, More.world_stored)
  /\ "stored"%string <> ""%string.
Proof.
  split; [reflexivity|].
  exact (proj1 (proj2 (access_token_precedence Sample.config More.world_stored
                         (Return "stored"%string) More.world_stored eq_refl))).
Defined.



(** ** The other reconciliation paths *)

Lemma truthyZ_Some z : z <> 0 -> truthyZ (Some z) = true.
Proof. intros Hz. simpl. destruct (z =? 0) eqn:E; [|reflexivity]. apply Z.eqb_eq in E. contradiction. Qed.

(** X13. Existing lead, known contact. A successful reconciliation reuses both
    ids and creates neither a lead nor a contact: it patches the contact
    when the event carries a contact field, links again, updates the custom
    fields when there are some, and adds the note. *)
Theorem known_contact_is_updated_in_place config lead known typeformSummary
    leadCustomFields contact w leadId contactId w' :
  lead <> 0 -> known <> 0 ->
  createOrUpdateByTypeform config (Some lead) (Some known) typeformSummary
    leadCustomFields contact w = (Return (leadId, contactId), w') ->
  leadId = lead /\ contactId = Some known
  /\ calls (new_events w w') =
       (if hasContactBits contact then [ contact_update_call known contact ] else [])
       ++ [ link_call lead known ]
       ++ match leadCustomFields with
          | [] => []
          | _ => [ lead_fields_call lead leadCustomFields ]
          end
       ++ [ note_call lead typeformSummary ].
Proof.
  intros Hl Hk H.
  apply createOrUpdateByTypeform_calls in H as (Hcalls & Hlead & _ & Hkeep & _).
  simpl in Hlead. subst leadId.
  unfold creates_contact in Hkeep.
  rewrite (truthyZ_Some _ Hl), (truthyZ_Some _ Hk) in Hkeep. simpl in Hkeep.
  specialize (Hkeep eq_refl). subst contactId.
  split; [reflexivity|]. split; [reflexivity|].
  rewrite Hcalls. unfold reconciliation_calls, contact_calls, creates_contact.
  rewrite (truthyZ_Some _ Hl), (truthyZ_Some _ Hk). simpl.
  destruct (hasContactBits contact); reflexivity.
Qed.

Lemma known_contact_is_updated_in_place_witness :
  let run := createOrUpdateByTypeform Sample.config (Some 501) (Some 77) "summary" []
               (extractContactBits Sample.form)
               (Sample.world [] [Sample.ok_plain; Sample.ok_plain; Sample.ok_plain]) in
  fst run = Return (501, Some 77)
  /\ calls (sent (snd run))
     = [ contact_update_call 77 (extractContactBits Sample.form);
         link_call 501 77; note_call 501 "summary" ].
Proof.
  intros run. split; [reflexivity|].
  exact (proj2 (proj2
    (known_contact_is_updated_in_place Sample.config 501 77 "summary" []
       (extractContactBits Sample.form)
       (Sample.world [] [Sample.ok_plain; Sample.ok_plain; Sample.ok_plain])
       501 (Some 77) (snd run) ltac:(discriminate) ltac:(discriminate) eq_refl))).
Defined.

(** X14. An event without contact fields never creates or patches a contact. A
    successful reconciliation then creates the lead when none exists, links
    an already known contact of an existing lead, updates the custom
    fields when there are some, and adds the note; for a new lead the
    result has no contact id. *)
Theorem no_contact_fields_no_contact_call config existingLeadId existingContactId
    typeformSummary leadCustomFields contact w leadId contactId w' :
  hasContactBits contact = false ->
  createOrUpdateByTypeform config existingLeadId existingContactId typeformSummary
    leadCustomFields contact w = (Return (leadId, contactId), w') ->
  contactId = (if truthyZ existingLeadId then existingContactId else None)
  /\ calls (new_events w w') =
       match existingLeadId with
       | None => [ lead_create_call config (leadName contact) ]
       | Some _ => []
       end
       ++ match contactId with
          | Some known => if truthyZ contactId then [ link_call leadId known ] else []
          | None => []
          end
       ++ match leadCustomFields with
          | [] => []
          | _ => [ lead_fields_call leadId leadCustomFields ]
          end
       ++ [ note_call leadId typeformSummary ].
Proof.
  intros Hbits H.
  apply createOrUpdateByTypeform_calls in H as (Hcalls & _ & _ & Hkeep & _).
  assert (Hcr : creates_contact existingLeadId existingContactId contact = false).
  { unfold creates_contact. rewrite Hbits. apply andb_false_r. }
  split; [exact (Hkeep Hcr)|].
  rewrite Hcalls. unfold reconciliation_calls, contact_calls. rewrite Hcr, Hbits.
  simpl.
  destruct contactId as [k|]; simpl; [rewrite andb_false_r|]; reflexivity.
Qed.

Lemma no_contact_fields_no_contact_call_witness :
  let contact := {| cb_name := None; cb_email := None; cb_phone := None |} in
  let run := createOrUpdateByTypeform Sample.config None None "summary" [] contact
               (Sample.world [] [Sample.ok_lead 501; Sample.ok_plain]) in
  fst run = Return (501, None)
  /\ calls (sent (snd run))
     = [ lead_create_call Sample.config "Typeform: submission";
         note_call 501 "summary" ].
Proof.
  intros contact run. split; [reflexivity|].
  exact (proj2
    (no_contact_fields_no_contact_call Sample.config None None "summary" [] contact
       (Sample.world [] [Sample.ok_lead 501; Sample.ok_plain])
       501 None (snd run) eq_refl eq_refl)).
Defined.

(** ** Dates, answer strings and the mapper's targets *)

Lemma trimEnd_app a b :
  Js.trimEnd b = b -> b <> ""%string -> Js.trimEnd (a ++ b)%string = (a ++ b)%string.
Proof.
  intros Hb Hne. induction a as [|c a IH]; [exact Hb|].
  change (String c a ++ b)%string with (String c (a ++ b)%string).
  cbn [Js.trimEnd]. rewrite IH. destruct (a ++ b)%string eqn:E; [|reflexivity].
  destruct a; [contradiction | discriminate E].
Qed.

Lemma digit_not_space c : Js.is_digit c = true -> Js.is_space c = false.
Proof.
  unfold Js.is_digit, Js.is_space. intros H.
  apply andb_true_iff in H as [H1 H2].
  apply Nat.leb_le in H1, H2.
  destruct (9 <=? nat_of_ascii c)%nat eqn:E1; simpl.
  - destruct (nat_of_ascii c <=? 13)%nat eqn:E2; simpl.
    + apply Nat.leb_le in E2. lia.
    + destruct (nat_of_ascii c =? 32)%nat eqn:E3; [apply Nat.eqb_eq in E3; lia|].
      destruct (nat_of_ascii c =? 160)%nat eqn:E4; [apply Nat.eqb_eq in E4; lia|].
      reflexivity.
  - apply Nat.leb_gt in E1. lia.
Qed.

Lemma iso_date_shape s :
  is_iso_date s = true ->
  String.length s = 10%nat
  /\ match s with String c _ => Js.is_space c = false | EmptyString => False end.
Proof.
  unfold is_iso_date.
  destruct s as [|c1 [|c2 [|c3 [|c4 [|c5 [|c6 [|c7 [|c8 [|c9 [|c10 [|c11 s]]]]]]]]]]];
    simpl; try discriminate.
  intros H. split; [reflexivity|].
  apply digit_not_space. destruct (Js.is_digit c1); [reflexivity | discriminate H].
Qed.

Lemma iso_date_stamped s :
  is_iso_date s = true ->
  Js.trim (s ++ "T00:00:00+00:00") = (s ++ "T00:00:00+00:00")%string
  /\ is_iso_date (s ++ "T00:00:00+00:00") = false.
Proof.
  intros H. destruct (iso_date_shape s H) as [Hlen Hhead]. split.
  - unfold Js.trim. rewrite trimStart_fixed.
    + apply trimEnd_app; [reflexivity | discriminate].
    + destruct s as [|c s]; [destruct Hhead | exact Hhead].
  - unfold is_iso_date.
    destruct s as [|c1 [|c2 [|c3 [|c4 [|c5 [|c6 [|c7 [|c8 [|c9 [|c10 [|c11 s]]]]]]]]]]];
      simpl in Hlen; try discriminate Hlen. reflexivity.
Qed.

(** X15. [toAmoDateTime] on a present value gives a trimmed string, empty exactly
    when the value is blank; applying it again to a non-empty result changes
    nothing, so a normalised date is never stamped twice. A missing or empty
    value gives no result. *)
Theorem toAmoDateTime_is_stable (v r : string) :
  toAmoDateTime (Some v) = Some r ->
  Js.trimmed r
  /\ (r = ""%string <-> Js.blank v = true)
  /\ (r <> ""%string -> toAmoDateTime (Some r) = Some r)
  /\ toAmoDateTime None = None /\ toAmoDateTime (Some ""%string) = None.
Proof.
  unfold toAmoDateTime. destruct v as [|c t]; [discriminate|].
  set (s := Js.trim (String c t)). intros H.
  assert (Hs : Js.trim s = s) by apply trim_idem.
  destruct (is_iso_date s) eqn:Hd; inversion H; subst r.
  - destruct (iso_date_stamped s Hd) as [Ht Hn].
    destruct (iso_date_shape s Hd) as [_ Hhead].
    assert (Hblank : Js.blank (String c t) = false).
    { unfold Js.blank. fold s. destruct s; [destruct Hhead | reflexivity]. }
    split; [exact Ht|]. split.
    + split; [destruct s; [destruct Hhead | discriminate] | congruence].
    + split; [|auto]. intros _.
      destruct (s ++ "T00:00:00+00:00")%string eqn:E.
      * destruct s; [destruct Hhead | discriminate E].
      * rewrite Ht, Hn. reflexivity.
  - split; [exact Hs|]. split.
    + unfold Js.blank. fold s. destruct s; split; congruence.
    + split; [|auto]. intros Hne. destruct s as [|c' t'] eqn:E; [congruence|].
      rewrite Hs, Hd. reflexivity.
Qed.

Lemma toAmoDateTime_is_stable_witness :
  toAmoDateTime (Some " 2019-03-07 "%string) = Some "2019-03-07T00:00:00+00:00"%string
  /\ toAmoDateTime (Some "2019-03-07T00:00:00+00:00"%string)
     = Some "2019-03-07T00:00:00+00:00"%string.
Proof.
  split; [reflexivity|].
  apply (toAmoDateTime_is_stable " 2019-03-07 " "2019-03-07T00:00:00+00:00" eq_refl).
  discriminate.
Defined.








(** ** The note and the order of hidden parameters *)

Lemma compare_trans_le a : forall b c,
  String.compare a b <> Gt -> String.compare b c <> Gt -> String.compare a c <> Gt.
Proof.
  induction a as [|x a IH]; intros [|y b] [|z c]; simpl; try congruence.
  unfold Ascii.compare.
  destruct (N.compare_spec (N_of_ascii x) (N_of_ascii y));
    destruct (N.compare_spec (N_of_ascii y) (N_of_ascii z));
    destruct (N.compare_spec (N_of_ascii x) (N_of_ascii z));
    intros Hab Hbc; try congruence;
    try (apply (IH b c); assumption); exfalso; lia.
Qed.

Lemma key_le_trans : Transitive key_le.
Proof.
  intros a b c. unfold key_le, String.leb. intros Hab Hbc.
  pose proof (compare_trans_le a b c) as Ht.
  destruct (String.compare a b); try discriminate;
    destruct (String.compare b c); try discriminate;
    destruct (String.compare a c); try reflexivity;
    exfalso; apply Ht; congruence.
Qed.

Lemma key_le_antisym : AntiSymm (=) key_le.
Proof. intros a b. apply String.leb_antisym. Qed.

Lemma sort_insert_perm k l : Permutation (sort_insert k l) (k :: l).
Proof.
  induction l as [|x l IH]; simpl; [reflexivity|].
  destruct (String.leb k x); [reflexivity|].
  rewrite IH. apply perm_swap.
Qed.

Lemma sort_keys_perm l : Permutation (sort_keys l) l.
Proof.
  induction l as [|k l IH]; simpl; [reflexivity|].
  rewrite sort_insert_perm, IH. reflexivity.
Qed.

Lemma sort_insert_sorted k l : Sorted key_le l -> Sorted key_le (sort_insert k l).
Proof.
  induction 1 as [|x l Hs IH Hhd]; simpl.
  - repeat constructor.
  - destruct (String.leb k x) eqn:E.
    + constructor; [constructor; assumption | constructor; exact E].
    + assert (Hxk : key_le x k).
      { destruct (String.leb_total k x) as [H|H]; [congruence | exact H]. }
      constructor; [exact IH|].
      destruct l as [|y l]; simpl.
      * constructor. exact Hxk.
      * destruct (String.leb k y); constructor; [exact Hxk|].
        inversion Hhd; assumption.
Qed.

Lemma sort_keys_sorted l : Sorted key_le (sort_keys l).
Proof.
  induction l as [|k l IH]; simpl; [constructor | apply sort_insert_sorted, IH].
Qed.

Lemma hidden_get_In h k v :
  NoDup (map fst h) -> In (k, v) h -> hidden_get h k = Some v.
Proof.
  induction h as [|[k' v'] h IH]; simpl; [tauto|].
  intros Hn [Heq|Hin]; apply NoDup_cons in Hn as [Hnot Hn].
  - inversion Heq; subst. rewrite String.eqb_refl. reflexivity.
  - destruct (String.eqb k' k) eqn:E; [|apply IH; assumption].
    apply String.eqb_eq in E. subst k'. exfalso. apply Hnot.
    apply list_elem_of_In, in_map_iff. exists (k, v). auto.
Qed.

Lemma hidden_get_perm h h' k :
  NoDup (map fst h) -> Permutation h h' -> hidden_get h k = hidden_get h' k.
Proof.
  intros Hn Hp.
  assert (Hn' : NoDup (map fst h')).
  { assert (Hm : Permutation (map fst h) (map fst h')) by (apply Permutation_map, Hp).
    rewrite <- Hm. exact Hn. }
  destruct (hidden_get h k) as [v|] eqn:E.
  - assert (Hin : In (k, v) h).
    { clear -E. induction h as [|[k' v'] h IH]; simpl in *; [discriminate|].
      destruct (String.eqb k' k) eqn:Ek; [|auto].
      apply String.eqb_eq in Ek. inversion E; subst. auto. }
    symmetry. apply hidden_get_In; [exact Hn'|].
    eapply Permutation_in; eassumption.
  - destruct (hidden_get h' k) as [v|] eqn:E'; [|reflexivity].
    assert (Hin : In (k, v) h').
    { clear -E'. induction h' as [|[k' v'] h' IH]; simpl in *; [discriminate|].
      destruct (String.eqb k' k) eqn:Ek; [|auto].
      apply String.eqb_eq in Ek. inversion E'; subst. auto. }
    apply Permutation_sym in Hp.
    rewrite (hidden_get_In h k v Hn (Permutation_in _ Hp Hin)) in E. discriminate.
Qed.

(** X18. The note lists the hidden parameters in sorted key order, each key
    once, so it does not depend on the order in which the event lists
    them. *)
Theorem note_ignores_hidden_order (fr : FormResponse) (h' : list (string * string)) :
  NoDup (map fst (hidden fr)) ->
  Permutation (hidden fr) h' ->
  Sorted key_le (sort_keys (map fst h'))
  /\ Permutation (sort_keys (map fst h')) (map fst (hidden fr))
  /\ stringifyAnswers (with_hidden fr h') = stringifyAnswers fr.
Proof.
  intros Hn Hp.
  assert (Hkeys : Permutation (map fst (hidden fr)) (map fst h'))
    by (apply Permutation_map, Hp).
  split; [apply sort_keys_sorted|].
  split; [rewrite sort_keys_perm; symmetry; exact Hkeys|].
  assert (Hsort : sort_keys (map fst h') = sort_keys (map fst (hidden fr))).
  { apply (@Sorted_unique _ key_le key_le_trans key_le_antisym);
      try apply sort_keys_sorted.
    rewrite !sort_keys_perm. symmetry. exact Hkeys. }
  assert (Hget : forall k, hidden_get h' k = hidden_get (hidden fr) k).
  { intros k. symmetry. apply hidden_get_perm; assumption. }
  unfold stringifyAnswers, with_hidden. simpl. f_equal. f_equal.
  rewrite Hsort.
  destruct (map fst h') as [|k1 ks1] eqn:E1;
    destruct (map fst (hidden fr)) as [|k2 ks2] eqn:E2.
  - reflexivity.
  - apply Permutation_sym, Permutation_nil in Hkeys. discriminate.
  - apply Permutation_nil in Hkeys. discriminate.
  - f_equal. f_equal. apply map_ext. intros k.
    rewrite Hget. reflexivity.
Qed.

Lemma note_ignores_hidden_order_witness :
  stringifyAnswers
    (with_hidden Sample.form [("email", "hidden@example.org"); ("utm_source", "ads")])
  = stringifyAnswers Sample.form.
Proof.
  apply (note_ignores_hidden_order Sample.form).
  - simpl. repeat (apply NoDup_cons; split; [|]); try apply NoDup_nil_2.
    + intros H. apply list_elem_of_In in H. simpl in H.
      destruct H as [H|[]]. discriminate H.
    + intros H. inversion H.
  - apply perm_swap.
Defined.

(** ** The signature check and the route *)

Lemma prefix_slice p : forall s,
  String.prefix p s = true -> s = (p ++ slice_from (String.length p) s)%string.
Proof.
  induction p as [|c p IH]; intros [|d s] H; try reflexivity; simpl in H.
  - discriminate.
  - destruct (ascii_dec c d) as [->|]; [|discriminate]. simpl.
    change (String d p ++ slice_from (String.length p) s)%string
      with (String d (p ++ slice_from (String.length p) s)%string).
    f_equal. apply IH, H.
Qed.

Lemma slice_prefix p : forall s,
  String.prefix p (p ++ s)%string = true
  /\ slice_from (String.length p) (p ++ s)%string = s.
Proof.
  induction p as [|c p IH]; intros s.
  - split; [destruct s; reflexivity | reflexivity].
  - change (String c p ++ s)%string with (String c (p ++ s)%string).
    cbn [String.prefix slice_from String.length].
    destruct (ascii_dec c c); [|congruence]. apply IH.
Qed.

Lemma signature_valid_iff hmac secret raw header :
  typeformIsSignatureValid hmac secret raw header = true
  <-> header = Some (signature_prefix ++ hmac secret raw)%string.
Proof.
  unfold typeformIsSignatureValid, Js.startsWith. split.
  - destruct header as [[|c t]|]; try discriminate.
    destruct (String.prefix signature_prefix (String c t)) eqn:Hp; cbn [negb];
      [|discriminate].
    destruct (_ =? _)%nat; cbn [negb]; [|discriminate].
    intros He. apply String.eqb_eq in He. rewrite He.
    f_equal. exact (prefix_slice _ _ Hp).
  - intros ->.
    destruct (slice_prefix signature_prefix (hmac secret raw)) as [Hp Hs].
    change (signature_prefix ++ hmac secret raw)%string
      with (String "s" ("ha256=" ++ hmac secret raw)%string) in *.
    cbv beta iota zeta. rewrite Hp, Hs. simpl. rewrite Nat.eqb_refl. simpl. apply String.eqb_refl.
Qed.

Lemma readEnv_not_blank env name v :
  readEnv env name = Some v -> env !! name = Some v /\ Js.blank v = false.
Proof.
  unfold readEnv. destruct (env !! name) as [x|]; [|discriminate].
  destruct (Js.blank x) eqn:E; [discriminate|].
  intros H. inversion H; subst. auto.
Qed.

Lemma not_blank_truthy v : Js.blank v = false -> Js.truthy (Some v) = true.
Proof.
  destruct v as [|c t]; [|reflexivity]. discriminate.
Qed.

(** X19. With [TYPEFORM_WEBHOOK_SECRET] set to a non-blank value, the route
    hands a request to the handler only when its [Typeform-Signature]
    header is exactly ["sha256="] followed by the digest of the raw body
    under that secret; a request with any other header, or without one, is
    answered 401, and then, as when the body cannot be read or parsed,
    the ledger, the tokens and the CRM are left untouched. *)
Theorem route_requires_signature
    (hmac : string -> string -> string) (parse : string -> option Payload)
    (config : AmoConfig) (fieldMap : list (string * FieldMapping))
    (env : gmap string string) (secret : string)
    (header body : option string) (w : World) :
  readEnv env TYPEFORM_WEBHOOK_SECRET = Some secret ->
  let '(out, w') :=
    route hmac parse config fieldMap (readEnv env TYPEFORM_WEBHOOK_SECRET) header body w in
  (out = InvalidSignature <->
     exists raw, body = Some raw
       /\ header <> Some (signature_prefix ++ hmac secret raw)%string)
  /\ match out with
     | Handled r =>
         exists raw payload,
           body = Some raw
           /\ header = Some (signature_prefix ++ hmac secret raw)%string
           /\ parse raw = Some payload
           /\ handle config fieldMap payload w = (r, w')
     | _ => w' = w
     end.
Proof.
  intros Hs. rewrite Hs.
  apply readEnv_not_blank in Hs as [_ Hb]. apply not_blank_truthy in Hb.
  unfold route. destruct body as [raw|].
  { rewrite Hb. cbn [Js.nullish andb].
    destruct (typeformIsSignatureValid hmac secret raw header) eqn:Hv; cbn [negb].
    - apply signature_valid_iff in Hv.
      destruct (parse raw) as [payload|] eqn:Hp.
      + destruct (handle config fieldMap payload w) as [r w'] eqn:Hh. split.
        * split; [discriminate|]. intros (raw' & Hr & Hn). inversion Hr; subst raw'.
          contradiction.
        * exists raw, payload. auto.
      + split; [|reflexivity].
        split; [discriminate|]. intros (raw' & Hr & Hn). inversion Hr; subst raw'.
        contradiction.
    - split; [|reflexivity]. split; [|reflexivity].
      intros _. exists raw. split; [reflexivity|].
      intros Hh. apply signature_valid_iff in Hh. congruence. }
  split; [|reflexivity].
  split; [discriminate|]. intros (raw' & Hr & _). discriminate.
Qed.

Lemma route_requires_signature_witness :
  fst (route Signing.digest Signing.parse Sample.config Sample.fieldMap
         (readEnv Signing.env TYPEFORM_WEBHOOK_SECRET)
         (Some "sha256=guess") (Some "event") Sample.world_new) = InvalidSignature.
Proof.
  pose proof (route_requires_signature Signing.digest Signing.parse Sample.config
                Sample.fieldMap Signing.env "s3cret" (Some "sha256=guess")
                (Some "event") Sample.world_new eq_refl) as H.
  destruct (route _ _ _ _ _ _ _ _) as [out w'] in H |- *.
  apply (proj1 H). exists "event". split; [reflexivity | discriminate].
Defined.

(** ** The mapper and its list-based predecessor *)

Lemma fold_put_kept ps : forall out,
  fold_left put ps out = fold_left set_entry (kept ps) out.
Proof.
  induction ps as [|p ps IH]; intros out; [reflexivity|].
  unfold kept. cbn [flat_map fold_left]. fold (kept ps).
  rewrite fold_left_app, IH. unfold put.
  destruct (put_skips p); reflexivity.
Qed.

Lemma legacy_hidden_step out kv :
  Legacy.hidden_step out kv = out ++ kept (hidden_rule kv).
Proof.
  unfold Legacy.hidden_step, hidden_rule.
  destruct (table_get HIDDEN_TO_LEAD_FIELD_ID (fst kv)) as [fieldId|];
    [|symmetry; apply app_nil_r].
  destruct (fieldId =? 0); [symmetry; apply app_nil_r|].
  destruct (Js.blank (snd kv)) eqn:Hb; [symmetry; apply app_nil_r|].
  unfold kept, put_skips. cbn [flat_map pp_value pp_enumId]. rewrite Hb.
  cbn [andb app]. unfold put_entry, Legacy.entry. cbn [pp_value pp_enumId pp_fieldId truthyZ].
  destruct (snd kv) as [|c t]; [discriminate Hb | reflexivity].
Qed.

Lemma legacy_answer_step fieldMap out a :
  getAnswerString a = Legacy.answerValue a ->
  Legacy.answer_step fieldMap out a = out ++ kept (dynamic_rule fieldMap a).
Proof.
  intros Hv. unfold Legacy.answer_step, dynamic_rule.
  destruct (table_get fieldMap (answer_key a)) as [mapping|];
    [|symmetry; apply app_nil_r].
  destruct (negb (String.eqb (fm_entity mapping) "lead")); [symmetry; apply app_nil_r|].
  rewrite Hv. unfold kept, put_skips. cbn [flat_map pp_value pp_enumId].
  destruct (Legacy.answerValue a) as [[|c t]|]; cbn [andb app];
    try (symmetry; apply app_nil_r).
  destruct (Js.blank (String c t)); cbn [andb app]; [symmetry; apply app_nil_r|].
  reflexivity.
Qed.

Lemma fold_pushes {A} (step : list LeadCustomFieldValue -> A -> list LeadCustomFieldValue)
    (rule : A -> list PutParams) (l : list A) :
  (forall out a, In a l -> step out a = out ++ kept (rule a)) ->
  forall out, fold_left step l out = out ++ kept (flat_map rule l).
Proof.
  induction l as [|a l IH]; intros Hstep out; cbn [fold_left flat_map].
  - symmetry. apply app_nil_r.
  - rewrite IH by (intros; apply Hstep; right; assumption).
    rewrite (Hstep out a) by (left; reflexivity).
    unfold kept. rewrite flat_map_app, app_assoc. reflexivity.
Qed.

Lemma no_builtin_ref_no_rule a : builtin_ref (answer_key a) = false -> static_rule a = [].
Proof.
  unfold builtin_ref, static_rule. intros H.
  do 4 (apply orb_false_iff in H as [H ?]).
  repeat match goal with Hx : includes_key _ _ = false |- _ => rewrite Hx; clear Hx end.
  reflexivity.
Qed.

Lemma no_date_same_value a :
  Js.truthy (ans_date a) = false -> getAnswerString a = Legacy.answerValue a.
Proof.
  intros Hd. unfold getAnswerString, Legacy.answerValue. rewrite Hd. reflexivity.
Qed.

(** X20. On a form whose answers use none of the built-in refs and carry no
    date, the mapper gives what its list-based predecessor gives, with one
    entry kept per field: the last one, at the position of the first. *)
Theorem mapper_keeps_last_legacy_entry
    (fieldMap : list (string * FieldMapping)) (fr : FormResponse) :
  Forall (fun a => builtin_ref (answer_key a) = false) (answers fr) ->
  Forall (fun a => Js.truthy (ans_date a) = false) (answers fr) ->
  buildLeadCustomFields fieldMap fr
  = last_per_field (Legacy.buildLeadCustomFields fieldMap fr).
Proof.
  intros Hrefs Hdates.
  rewrite buildLeadCustomFields_rules.
  assert (Hstatic : static_rules fr = []).
  { unfold static_rules. clear Hdates. induction Hrefs as [|a l Ha _ IH]; [reflexivity|].
    cbn [flat_map]. rewrite (no_builtin_ref_no_rule a Ha). exact IH. }
  rewrite Hstatic. cbn [app].
  unfold last_per_field, Legacy.buildLeadCustomFields. f_equal.
  rewrite (fold_pushes Legacy.hidden_step hidden_rule)
    by (intros; apply legacy_hidden_step).
  rewrite (fold_pushes (Legacy.answer_step fieldMap) (dynamic_rule fieldMap)).
  - cbn [app]. fold (hidden_rules fr). fold (dynamic_rules fieldMap fr).
    rewrite fold_put_kept. unfold kept. rewrite flat_map_app. reflexivity.
  - intros out a Ha. apply legacy_answer_step, no_date_same_value.
    rewrite Forall_forall in Hdates. apply Hdates, list_elem_of_In, Ha.
Qed.

Lemma mapper_keeps_last_legacy_entry_witness :
  buildLeadCustomFields Sample.fieldMap Sample.form
  = last_per_field (Legacy.buildLeadCustomFields Sample.fieldMap Sample.form).
Proof.
  apply (mapper_keeps_last_legacy_entry Sample.fieldMap Sample.form);
    repeat (apply Forall_cons; split; [reflexivity|]); apply Forall_nil_2.
Defined.
